(** * A shallow embedding of the C99 bitset library (bitset.h / bitset.c)

    The library stores one logical bit per [_Bool] cell.  A [bitset] is a
    C struct holding a pointer to a heap buffer and a length; every public
    function receives a pointer to such a struct and mutates it in place.

    The embedding keeps that shape: a memory consists of the bitset structs
    (addressed by handles) and of the live heap blocks (addressed by block
    identifiers).  Each C function becomes a computation in a small monad
    that threads the memory and has one failure, undefined behaviour. *)

From Stdlib Require Import ZArith Ascii String.
From stdpp Require Import gmap list fin_maps.

Local Open Scope Z_scope.

(** ** Status codes (bitset.h) *)

Definition BITSET_GOOD : Z := 0.
Definition BITSET_NULL_ERR : Z := 1.
Definition BITSET_ALLOC_ERR : Z := 2.
Definition BITSET_LENGTH_ERR : Z := 3.

(** [#define CHAR_LEN 8] (bitset.c) *)
Definition CHAR_LEN : Z := 8.

(** ** Memory *)

(** Addresses of [bitset] structs and of heap blocks.  A C pointer that may
    be [NULL] is an [option]. *)
Definition handle := positive.
Definition block := positive.

(** [typedef struct bitset_t { _Bool *bits; size_t len; } bitset;] *)
Record bitset_t : Type := Bitset {
  bits : option block;
  len : Z
}.

(** The structs that exist, and the heap blocks that are live.  A block is
    the list of its [_Bool] cells; its allocated size is the list's length. *)
Record mem : Type := Mem {
  structs : gmap handle bitset_t;
  heap : gmap block (list bool)
}.

(** ** The monad: memory passing, [None] is undefined behaviour *)

Definition M (A : Type) : Type := mem -> option (A * mem).

Definition ret {A} (a : A) : M A := fun m => Some (a, m).

Definition bind {A B} (c : M A) (f : A -> M B) : M B :=
  fun m => match c m with
           | Some (a, m') => f a m'
           | None => None
           end.

Definition undef {A} : M A := fun _ => None.

Declare Scope cmd_scope.
Delimit Scope cmd_scope with cmd.
Notation "'let*' x ':=' c 'in' k" := (bind c (fun x => k))
  (at level 10, x name, c at level 100, k at level 200) : cmd_scope.
Notation "c ';;;' k" := (bind c (fun _ => k))
  (at level 100, k at level 200, right associativity) : cmd_scope.
Local Open Scope cmd_scope.

(** *** Struct fields *)

(** [b->bits] and [b->len]; dereferencing a handle that is no struct is
    undefined. *)
Definition load_bits (b : handle) : M (option block) :=
  fun m => match structs m !! b with
           | Some s => Some (bits s, m)
           | None => None
           end.

Definition load_len (b : handle) : M Z :=
  fun m => match structs m !! b with
           | Some s => Some (len s, m)
           | None => None
           end.

(** [b->len = n;] *)
Definition store_len (b : handle) (n : Z) : M unit :=
  fun m => match structs m !! b with
           | Some s => Some (tt, Mem (<[b := Bitset (bits s) n]> (structs m)) (heap m))
           | None => None
           end.

(** [b->bits = p;] *)
Definition store_bits (b : handle) (p : option block) : M unit :=
  fun m => match structs m !! b with
           | Some s => Some (tt, Mem (<[b := Bitset p (len s)]> (structs m)) (heap m))
           | None => None
           end.

(** *** Heap cells *)

(** The [cnt] cells starting at offset [off] of a cell array, when that range
    lies inside the array. *)
Definition sub_cells (cells : list bool) (off cnt : Z) : option (list bool) :=
  if decide (0 <= off /\ 0 <= cnt /\ off + cnt <= Z.of_nat (length cells))
  then Some (take (Z.to_nat cnt) (drop (Z.to_nat off) cells))
  else None.

(** Overwriting the cells at offsets [off, off + length vs) with [vs], when
    that range lies inside the array. *)
Definition upd_cells (cells : list bool) (off : Z) (vs : list bool) : option (list bool) :=
  if decide (0 <= off /\ off + Z.of_nat (length vs) <= Z.of_nat (length cells))
  then Some (take (Z.to_nat off) cells ++ vs ++ drop (Z.to_nat off + length vs) cells)
  else None.

(** Reading [cnt] cells at [p + off]: the block must be live and the range
    inside it. *)
Definition read_cells (p : block) (off cnt : Z) : M (list bool) :=
  fun m => match heap m !! p with
           | Some cells =>
               match sub_cells cells off cnt with
               | Some vs => Some (vs, m)
               | None => None
               end
           | None => None
           end.

(** Writing the cells [vs] at [p + off]. *)
Definition write_cells (p : block) (off : Z) (vs : list bool) : M unit :=
  fun m => match heap m !! p with
           | Some cells =>
               match upd_cells cells off vs with
               | Some cells' => Some (tt, Mem (structs m) (<[p := cells']> (heap m)))
               | None => None
               end
           | None => None
           end.

(** [p[i]] as an rvalue and [p[i] = v]. *)
Definition read_cell (p : block) (i : Z) : M bool :=
  let* vs := read_cells p i 1 in
  match vs with
  | [v] => ret v
  | _ => undef
  end.

Definition write_cell (p : block) (i : Z) (v : bool) : M unit :=
  write_cells p i [v].

(** *** The allocator

    Whether an allocation succeeds is decided by the environment: every
    function that allocates takes the allocator's answer [ok] as an argument.
    A successful allocation returns a block that is not live. [calloc] zeroes
    the block.  The contents of a [malloc]ed block are indeterminate; the
    library overwrites the whole block before it reads any of it, so the
    model fills it with [false] as well.  A request of size zero may be
    answered by a non-null pointer to a block without cells (as glibc does)
    or by [NULL]; both answers are covered by [ok].

    Sizes are counted in cells: [sizeof(_Bool)] is taken to be 1. *)
Definition fresh_block (m : mem) : block := fresh (dom (heap m)).

Definition calloc (ok : bool) (n : Z) : M (option block) :=
  fun m => if ok
           then let p := fresh_block m in
                Some (Some p, Mem (structs m) (<[p := replicate (Z.to_nat n) false]> (heap m)))
           else Some (None, m).

Definition malloc (ok : bool) (n : Z) : M (option block) := calloc ok n.

(** [free(p)]: nothing for [NULL]; a block that is not live must not be
    freed. *)
Definition free (p : option block) : M unit :=
  fun m => match p with
           | None => Some (tt, m)
           | Some q =>
               match heap m !! q with
               | Some _ => Some (tt, Mem (structs m) (delete q (heap m)))
               | None => None
               end
           end.

(** *** string.h on cell arrays *)

(** [memset(p + off, 0, cnt * sizeof(_Bool))] *)
Definition memset0 (p : block) (off cnt : Z) : M unit :=
  if decide (0 <= cnt) then write_cells p off (replicate (Z.to_nat cnt) false) else undef.

(** [memmove(dst + doff, src + soff, cnt * sizeof(_Bool))]: the source cells
    are read before any cell is written. *)
Definition memmove (dst : block) (doff : Z) (src : block) (soff : Z) (cnt : Z) : M unit :=
  let* vs := read_cells src soff cnt in
  write_cells dst doff vs.

(** [memcpy]: as [memmove], but the two ranges must not overlap. *)
Definition memcpy (dst : block) (doff : Z) (src : block) (soff : Z) (cnt : Z) : M unit :=
  if decide (dst = src /\ doff < soff + cnt /\ soff < doff + cnt)
  then undef
  else memmove dst doff src soff cnt.

(** ** size_t arithmetic *)

Section Bitset.

(** The width of [size_t] in bits. *)
Variable size_bits : Z.

Definition SIZE_MAX : Z := 2 ^ size_bits - 1.

(** A value of type [size_t]. *)
Definition is_size (x : Z) : Prop := 0 <= x <= SIZE_MAX.

(** Unsigned arithmetic wraps modulo [SIZE_MAX + 1]. *)
Definition size_wrap (x : Z) : Z := x mod (2 ^ size_bits).
Definition size_mul (x y : Z) : Z := size_wrap (x * y).
Definition size_sub (x y : Z) : Z := size_wrap (x - y).

(** [x % y]: undefined when [y] is zero. *)
Definition size_rem (x y : Z) : M Z :=
  if decide (y = 0) then undef else ret (x mod y).

(** ** Loops *)

(** [for (size_t i = i0; i < i0 + k; i++) body(i)] for a bound that the body
    does not change.  The index stays below the bound, itself a [size_t], so
    [i++] never wraps. *)
Fixpoint for_loop (k : nat) (i : Z) (body : Z -> M unit) : M unit :=
  match k with
  | O => ret tt
  | S k' => body i;;; for_loop k' (i + 1) body
  end.

(** [for (size_t i = 0; i < n; i++) body(i)] *)
Definition for_cells (n : Z) (body : Z -> M unit) : M unit :=
  for_loop (Z.to_nat n) 0 body.

(** ** Construction *)

(** [int bitset_init(bitset *b, size_t n)] *)
Definition bitset_init (ok : bool) (b : option handle) (n : Z) : M Z :=
  match b with
  | None => ret BITSET_NULL_ERR
  | Some b =>
      if decide (n = 0) then ret BITSET_NULL_ERR
      else
        store_len b n;;;
        let* p := calloc ok n in
        store_bits b p;;;
        let* q := load_bits b in
        match q with
        | None => ret BITSET_ALLOC_ERR
        | Some _ => ret BITSET_GOOD
        end
  end.

(** A [const char *] argument is [NULL] or points to an array of characters,
    given by its contents; reading past the array's end is undefined. *)
Definition NUL : ascii := "000"%char.

(** The loop of [bitset_init_bstr],
    [for (i = 0; i < n && str[i] != 0; i++) b->bits[i] = (str[i] == '1');],
    from index [i] on; [str] is the array from [str + i] on. *)
Fixpoint bstr_fill (p : block) (n : Z) (i : Z) (str : list ascii) : M unit :=
  if decide (i < n) then
    match str with
    | [] => undef
    | c :: str' =>
        if decide (c = NUL) then ret tt
        else
          write_cell p i (bool_decide (c = "1"%char));;;
          bstr_fill p n (i + 1) str'
    end
  else ret tt.

(** [int bitset_init_bstr(bitset *b, const char *str, size_t n)] *)
Definition bitset_init_bstr (ok : bool) (b : option handle) (str : option (list ascii))
    (n : Z) : M Z :=
  match b, str with
  | Some b, Some str =>
      if decide (n = 0) then ret BITSET_NULL_ERR
      else
        store_len b n;;;
        let* p := calloc ok n in
        store_bits b p;;;
        let* q := load_bits b in
        match q with
        | Some q => bstr_fill q n 0 str;;; ret BITSET_GOOD
        | None => ret BITSET_ALLOC_ERR
        end
  | _, _ => ret BITSET_NULL_ERR
  end.

(** The [do ... while] loop of [bits_from_char]:
    [do { bits[b--] = (c & 1); } while ((c >>= 1) > 0);]
    The static array has [CHAR_LEN] cells; a write outside it is undefined,
    as is running out of [fuel]. *)
Fixpoint bits_from_char_loop (fuel : nat) (bin : list bool) (b : Z) (c : Z)
    : option (list bool) :=
  match fuel with
  | O => None
  | S fuel' =>
      if decide (0 <= b < CHAR_LEN) then
        let bin' := <[Z.to_nat b := bool_decide (Z.land c 1 <> 0)]> bin in
        let c' := Z.shiftr c 1 in
        if decide (c' > 0) then bits_from_char_loop fuel' bin' (b - 1) c'
        else Some bin'
      else None
  end.

(** [static _Bool *bits_from_char(unsigned char c)]: the contents of the
    static array it returns.  The argument is a [char] converted to
    [unsigned char], that is, its byte value. *)
Definition bits_from_char (c : ascii) : option (list bool) :=
  bits_from_char_loop (Z.to_nat CHAR_LEN + 1) (replicate (Z.to_nat CHAR_LEN) false)
    (CHAR_LEN - 1) (Z.of_N (N_of_ascii c)).

(** The loop of [bitset_init_str],
    [for (i = 0; i < n && str[i] != 0; i++) memcpy(b->bits + i * CHAR_LEN, bin, CHAR_LEN);],
    from index [i] on; [str] is the array from [str + i] on.  The source of
    the copy is the static array, which no heap block overlaps. *)
Fixpoint str_fill (p : block) (n : Z) (i : Z) (str : list ascii) : M unit :=
  if decide (i < n) then
    match str with
    | [] => undef
    | c :: str' =>
        if decide (c = NUL) then ret tt
        else
          match bits_from_char c with
          | Some bin =>
              write_cells p (size_mul i CHAR_LEN) bin;;;
              str_fill p n (i + 1) str'
          | None => undef
          end
    end
  else ret tt.

(** [int bitset_init_str(bitset *b, const char *str, size_t n)] *)
Definition bitset_init_str (ok : bool) (b : option handle) (str : option (list ascii))
    (n : Z) : M Z :=
  match b, str with
  | Some b, Some str =>
      if decide (n = 0) then ret BITSET_NULL_ERR
      else
        store_len b (size_mul n CHAR_LEN);;;
        let* l := load_len b in
        let* p := calloc ok l in
        store_bits b p;;;
        let* q := load_bits b in
        match q with
        | Some q => str_fill q n 0 str;;; ret BITSET_GOOD
        | None => ret BITSET_ALLOC_ERR
        end
  | _, _ => ret BITSET_NULL_ERR
  end.

(** ** Queries *)

(** [size_t bitset_true_len(const bitset *b)]; the count cannot exceed
    [b->len], so [ret += ...] does not wrap. *)
Fixpoint true_len_loop (k : nat) (p : block) (i : Z) (acc : Z) : M Z :=
  match k with
  | O => ret acc
  | S k' =>
      let* v := read_cell p i in
      true_len_loop k' p (i + 1) (acc + (if v then 1 else 0))
  end.

Definition bitset_true_len (b : option handle) : M Z :=
  match b with
  | None => ret 0
  | Some b =>
      let* p := load_bits b in
      match p with
      | None => ret 0
      | Some p =>
          let* l := load_len b in
          true_len_loop (Z.to_nat l) p 0 0
      end
  end.

(** The loops of [bitset_all] and [bitset_any] return from inside the loop:
    [stop] is the cell value that ends the scan, which is then the answer
    negated for [all] and the answer itself for [any]. *)
Fixpoint scan_loop (stop : bool) (k : nat) (p : block) (i : Z) : M bool :=
  match k with
  | O => ret false
  | S k' =>
      let* v := read_cell p i in
      if bool_decide (v = stop) then ret true else scan_loop stop k' p (i + 1)
  end.

(** [_Bool bitset_all(const bitset *b)] *)
Definition bitset_all (b : option handle) : M bool :=
  match b with
  | None => ret false
  | Some b =>
      let* p := load_bits b in
      match p with
      | None => ret false
      | Some p =>
          let* l := load_len b in
          let* found := scan_loop false (Z.to_nat l) p 0 in
          ret (negb found)
      end
  end.

(** [_Bool bitset_any(const bitset *b)] *)
Definition bitset_any (b : option handle) : M bool :=
  match b with
  | None => ret false
  | Some b =>
      let* p := load_bits b in
      match p with
      | None => ret false
      | Some p =>
          let* l := load_len b in
          scan_loop true (Z.to_nat l) p 0
      end
  end.

(** ** Boolean operators *)

(** [bitset_and], [bitset_or] and [bitset_xor] have the same body up to the
    compound assignment in the loop, [lhs->bits[i] op= rhs->bits[i]]. *)
Definition bitset_binop (op : bool -> bool -> bool) (lhs rhs : option handle) : M Z :=
  match lhs with
  | None => ret BITSET_NULL_ERR
  | Some lhs =>
      match rhs with
      | None => ret BITSET_NULL_ERR
      | Some rhs =>
          let* lp := load_bits lhs in
          match lp with
          | None => ret BITSET_NULL_ERR
          | Some lp =>
              let* rp := load_bits rhs in
              match rp with
              | None => ret BITSET_NULL_ERR
              | Some rp =>
                  let* ll := load_len lhs in
                  let* rl := load_len rhs in
                  if decide (ll <> rl) then ret BITSET_LENGTH_ERR
                  else
                    for_cells ll (fun i =>
                      let* x := read_cell lp i in
                      let* y := read_cell rp i in
                      write_cell lp i (op x y));;;
                    ret BITSET_GOOD
              end
          end
      end
  end.

(** [int bitset_and(bitset *lhs, const bitset *rhs)] *)
Definition bitset_and : option handle -> option handle -> M Z := bitset_binop andb.

(** [int bitset_or(bitset *lhs, const bitset *rhs)] *)
Definition bitset_or : option handle -> option handle -> M Z := bitset_binop orb.

(** [int bitset_xor(bitset *lhs, const bitset *rhs)] *)
Definition bitset_xor : option handle -> option handle -> M Z := bitset_binop xorb.

(** [int bitset_not(bitset *b)] *)
Definition bitset_not (b : option handle) : M Z :=
  match b with
  | None => ret BITSET_NULL_ERR
  | Some b =>
      let* p := load_bits b in
      match p with
      | None => ret BITSET_NULL_ERR
      | Some p =>
          let* l := load_len b in
          for_cells l (fun i =>
            let* x := read_cell p i in
            write_cell p i (if x then false else true));;;
          ret BITSET_GOOD
      end
  end.

(** ** Shifts *)

(** [int bitset_lsh(bitset *b, size_t n)] *)
Definition bitset_lsh (b : option handle) (n : Z) : M Z :=
  match b with
  | None => ret BITSET_NULL_ERR
  | Some b =>
      let* p := load_bits b in
      match p with
      | None => ret BITSET_NULL_ERR
      | Some p =>
          if decide (n = 0) then ret BITSET_GOOD
          else
            let* l := load_len b in
            (if decide (n >= l) then memset0 p 0 l
             else
               let sh := size_sub l n in
               memmove p 0 p n sh;;;
               memset0 p sh n);;;
            ret BITSET_GOOD
      end
  end.

(** [int bitset_rsh(bitset *b, size_t n)] *)
Definition bitset_rsh (b : option handle) (n : Z) : M Z :=
  match b with
  | None => ret BITSET_NULL_ERR
  | Some b =>
      let* p := load_bits b in
      match p with
      | None => ret BITSET_NULL_ERR
      | Some p =>
          if decide (n = 0) then ret BITSET_GOOD
          else
            let* l := load_len b in
            (if decide (n >= l) then memset0 p 0 l
             else
               let sh := size_sub l n in
               memmove p n p 0 sh;;;
               memset0 p 0 n);;;
            ret BITSET_GOOD
      end
  end.

(** ** Rotations *)

(** [int bitset_lrot(bitset *b, size_t n)] *)
Definition bitset_lrot (ok : bool) (b : option handle) (n : Z) : M Z :=
  match b with
  | None => ret BITSET_NULL_ERR
  | Some b =>
      let* p := load_bits b in
      match p with
      | None => ret BITSET_NULL_ERR
      | Some p =>
          let* l := load_len b in
          let* r := size_rem n l in
          if decide (r = 0) then ret BITSET_GOOD
          else
            let* n := size_rem n l in
            let rot := size_sub l n in
            let* temp := malloc ok n in
            match temp with
            | Some temp =>
                memcpy temp 0 p 0 n;;;
                memmove p 0 p n rot;;;
                memcpy p rot temp 0 n;;;
                free (Some temp);;;
                ret BITSET_GOOD
            | None => ret BITSET_ALLOC_ERR
            end
      end
  end.

(** [int bitset_rrot(bitset *b, size_t n)] *)
Definition bitset_rrot (ok : bool) (b : option handle) (n : Z) : M Z :=
  match b with
  | None => ret BITSET_NULL_ERR
  | Some b =>
      let* p := load_bits b in
      match p with
      | None => ret BITSET_NULL_ERR
      | Some p =>
          let* l := load_len b in
          let* r := size_rem n l in
          if decide (r = 0) then ret BITSET_GOOD
          else
            let* n := size_rem n l in
            let rot := size_sub l n in
            let* temp := malloc ok n in
            match temp with
            | Some temp =>
                memcpy temp 0 p rot n;;;
                memmove p n p 0 rot;;;
                memcpy p 0 temp 0 n;;;
                free (Some temp);;;
                ret BITSET_GOOD
            | None => ret BITSET_ALLOC_ERR
            end
      end
  end.

(** ** Reset and release *)

(** [void bitset_reset(bitset *b)] *)
Definition bitset_reset (b : option handle) : M unit :=
  match b with
  | None => ret tt
  | Some b =>
      let* p := load_bits b in
      match p with
      | None => ret tt
      | Some p =>
          let* l := load_len b in
          for_cells l (fun i => write_cell p i false)
      end
  end.

(** [void bitset_free(bitset *b)] *)
Definition bitset_free (b : option handle) : M unit :=
  match b with
  | None => ret tt
  | Some b =>
      let* p := load_bits b in
      free p;;;
      store_bits b None
  end.

(** ** Well-formed bitsets *)

(** The eight bits of a character's byte value, most significant first. *)
Definition msb_first (c : ascii) : list bool :=
  (fun j => Z.testbit (Z.of_N (N_of_ascii c)) j) <$> [7; 6; 5; 4; 3; 2; 1; 0].

(** The memory [m] with the cells of block [p] replaced. *)
Definition with_cells (m : mem) (p : block) (cells : list bool) : mem :=
  Mem (structs m) (<[p := cells]> (heap m)).

(** The memory [m] with the struct at [b] replaced. *)
Definition with_struct (m : mem) (b : handle) (s : bitset_t) : mem :=
  Mem (<[b := s]> (structs m)) (heap m).

(** In [m], the struct at [b] points to the live block [p], whose cells are
    [cells], and its [len] is the allocated size of that block. *)
Definition ready (m : mem) (b : handle) (p : block) (cells : list bool) : Prop :=
  structs m !! b = Some (Bitset (Some p) (Z.of_nat (length cells))) /\
  heap m !! p = Some cells /\
  is_size (Z.of_nat (length cells)).

(** An initialized bitset of the data model: ready, and of positive length. *)
Definition initialized (m : mem) (b : handle) (p : block) (cells : list bool) : Prop :=
  ready m b p cells /\ 0 < Z.of_nat (length cells).

(** Every struct of [m] whose buffer is non-null is an initialized bitset. *)
Definition all_initialized (m : mem) : Prop :=
  forall b s p, structs m !! b = Some s -> bits s = Some p ->
    exists cells, initialized m b p cells /\ len s = Z.of_nat (length cells).

(** The struct at [b] has a null buffer, or a live buffer of [len] cells. *)
Definition usable (m : mem) (b : handle) : Prop :=
  exists s, structs m !! b = Some s /\
    match bits s with
    | None => True
    | Some p => exists cells, heap m !! p = Some cells /\ len s = Z.of_nat (length cells)
    end.

(** An operand of a binary operator: a null pointer, or a usable struct. *)
Definition operand (m : mem) (r : option handle) : Prop :=
  match r with
  | None => True
  | Some r => usable m r
  end.

(** A pointer argument of type [bitset *]: null, or the address of a struct. *)
Definition valid_ptr (m : mem) (r : option handle) : Prop :=
  match r with
  | None => True
  | Some r => is_Some (structs m !! r)
  end.

(** The call [c] returns from memory [m], and the [len] field of the struct
    at [b] is afterwards what it was before. *)
Definition keeps_len {A} (c : M A) (m : mem) (b : handle) : Prop :=
  exists a m', c m = Some (a, m') /\
    len <$> (structs m' !! b) = len <$> (structs m !! b).

(** The invariant of the loops over the cells: the structs are those of
    [m0], and the blocks [lp] and [rp] have [n] cells each. *)
Definition cells_inv (m0 : mem) (lp rp : block) (n : Z) (m : mem) : Prop :=
  structs m = structs m0 /\
  (exists c, heap m !! lp = Some c /\ Z.of_nat (length c) = n) /\
  (exists c, heap m !! rp = Some c /\ Z.of_nat (length c) = n).

(** ** The public interface as a transition system *)

(** A call of a public function: its arguments and, where it allocates, the
    allocator's answer. *)
Inductive call : Type :=
| Call_init (ok : bool) (b : option handle) (n : Z)
| Call_init_bstr (ok : bool) (b : option handle) (str : option (list ascii)) (n : Z)
| Call_init_str (ok : bool) (b : option handle) (str : option (list ascii)) (n : Z)
| Call_true_len (b : option handle)
| Call_all (b : option handle)
| Call_any (b : option handle)
| Call_and (lhs rhs : option handle)
| Call_or (lhs rhs : option handle)
| Call_xor (lhs rhs : option handle)
| Call_not (b : option handle)
| Call_lsh (b : option handle) (n : Z)
| Call_rsh (b : option handle) (n : Z)
| Call_lrot (ok : bool) (b : option handle) (n : Z)
| Call_rrot (ok : bool) (b : option handle) (n : Z)
| Call_reset (b : option handle)
| Call_free (b : option handle).

(** The [size_t] arguments of a call are values of that type. *)
Definition call_sizes (c : call) : Prop :=
  match c with
  | Call_init _ _ n | Call_init_bstr _ _ _ n | Call_init_str _ _ _ n
  | Call_lsh _ n | Call_rsh _ n | Call_lrot _ _ n | Call_rrot _ _ n => is_size n
  | _ => True
  end.

(** The effect of a call on the memory; its result is dropped. *)
Definition exec (c : call) : M unit :=
  match c with
  | Call_init ok b n => bitset_init ok b n;;; ret tt
  | Call_init_bstr ok b str n => bitset_init_bstr ok b str n;;; ret tt
  | Call_init_str ok b str n => bitset_init_str ok b str n;;; ret tt
  | Call_true_len b => bitset_true_len b;;; ret tt
  | Call_all b => bitset_all b;;; ret tt
  | Call_any b => bitset_any b;;; ret tt
  | Call_and lhs rhs => bitset_and lhs rhs;;; ret tt
  | Call_or lhs rhs => bitset_or lhs rhs;;; ret tt
  | Call_xor lhs rhs => bitset_xor lhs rhs;;; ret tt
  | Call_not b => bitset_not b;;; ret tt
  | Call_lsh b n => bitset_lsh b n;;; ret tt
  | Call_rsh b n => bitset_rsh b n;;; ret tt
  | Call_lrot ok b n => bitset_lrot ok b n;;; ret tt
  | Call_rrot ok b n => bitset_rrot ok b n;;; ret tt
  | Call_reset b => bitset_reset b
  | Call_free b => bitset_free b
  end.

(** Before any call, no struct has a buffer and no block is live. *)
Definition pristine (m : mem) : Prop :=
  heap m = ∅ /\ forall b s, structs m !! b = Some s -> bits s = None.

(** The memories that calls among the [allowed] ones lead to from a pristine
    one.  A call whose behaviour is undefined leads nowhere. *)
Inductive reachable_by (allowed : call -> Prop) : mem -> Prop :=
| reach_pristine m : pristine m -> reachable_by allowed m
| reach_call m c m' :
    reachable_by allowed m -> allowed c -> exec c m = Some (tt, m') ->
    reachable_by allowed m'.

(** The memories reachable through the public functions. *)
Definition reachable : mem -> Prop := reachable_by call_sizes.

(** A call in which the product [n * CHAR_LEN] of [bitset_init_str] does not
    exceed [SIZE_MAX]. *)
Definition call_nowrap (c : call) : Prop :=
  match c with
  | Call_init_str _ _ _ n => n * CHAR_LEN <= SIZE_MAX
  | _ => True
  end.

(** The memories reachable through calls in which that product does not
    wrap. *)
Definition reachable_nowrap : mem -> Prop :=
  reachable_by (fun c => call_sizes c /\ call_nowrap c).

(** [m] has the structs of [m0] and the same live blocks, each of the size it
    has in [m0]. *)
Definition same_shape (m0 m : mem) : Prop :=
  structs m = structs m0 /\
  forall q, length <$> (heap m !! q) = length <$> (heap m0 !! q).

(** A computation that, when it returns, has kept the shape of the memory. *)
Definition keeps_shape {A} (c : M A) : Prop :=
  forall m a m', c m = Some (a, m') -> same_shape m m'.

(** No two structs point to the same block. *)
Definition unshared (m : mem) : Prop :=
  forall b1 b2 s1 s2 p,
    structs m !! b1 = Some s1 -> structs m !! b2 = Some s2 ->
    bits s1 = Some p -> bits s2 = Some p -> b1 = b2.

(** The invariant of the data model. *)
Definition sound (m : mem) : Prop := all_initialized m /\ unshared m.

(** ** Vocabulary of the further properties *)

(** The number of true cells. *)
Definition popcount (cells : list bool) : Z :=
  Z.of_nat (count_occ Bool.bool_dec cells true).

(** A computation that, when it returns, has left the memory as it was. *)
Definition read_only {A} (c : M A) : Prop :=
  forall m a m', c m = Some (a, m') -> m' = m.

(** The cells rotated by [k] towards lower indices: the first [k] become the
    tail. *)
Definition rotated (k : nat) (cells : list bool) : list bool :=
  drop k cells ++ take k cells.

(** ** Some memories *)

(** One struct, not yet initialized, and an empty heap. *)
Definition one_handle : mem := Mem {[ 1%positive := Bitset None 0 ]} ∅.

(** An initialized bitset of five cells and one of three. *)
Definition two_bitsets : mem :=
  Mem {[ 1%positive := Bitset (Some 1%positive) 5; 2%positive := Bitset (Some 2%positive) 3 ]}
      {[ 1%positive := [true; false; true; false; false];
         2%positive := [true; true; false] ]}.

(** The cells of the first bitset of [two_bitsets]. *)
Definition five_cells : list bool := [true; false; true; false; false].

(** Two initialized bitsets of three cells each, with buffers of their own. *)
Definition twin_bitsets : mem :=
  Mem {[ 1%positive := Bitset (Some 1%positive) 3; 2%positive := Bitset (Some 2%positive) 3 ]}
      {[ 1%positive := [true; false; true];
         2%positive := [true; true; false] ]}.

(** The memory after [bitset_init] with [n = 2] on [one_handle]. *)
Definition after_init : mem :=
  Mem {[ 1%positive := Bitset (Some 1%positive) 2 ]} {[ 1%positive := [false; false] ]}.

(** * Properties *)

(** ** The monad and the primitives *)

Lemma bind_eq {A B} (c : M A) (f : A -> M B) m a m' :
  c m = Some (a, m') -> bind c f m = f a m'.
Proof. unfold bind. by intros ->. Qed.

Lemma bind_undef {A B} (c : M A) (f : A -> M B) m :
  c m = None -> bind c f m = None.
Proof. unfold bind. by intros ->. Qed.

Lemma load_bits_eq m b s :
  structs m !! b = Some s -> load_bits b m = Some (bits s, m).
Proof. unfold load_bits. by intros ->. Qed.

Lemma load_len_eq m b s :
  structs m !! b = Some s -> load_len b m = Some (len s, m).
Proof. unfold load_len. by intros ->. Qed.

Lemma store_len_eq m b s n :
  structs m !! b = Some s ->
  store_len b n m = Some (tt, with_struct m b (Bitset (bits s) n)).
Proof. unfold store_len. by intros ->. Qed.

Lemma store_bits_eq m b s p :
  structs m !! b = Some s ->
  store_bits b p m = Some (tt, with_struct m b (Bitset p (len s))).
Proof. unfold store_bits. by intros ->. Qed.

Lemma read_cells_eq m p cells off cnt :
  heap m !! p = Some cells ->
  0 <= off -> 0 <= cnt -> off + cnt <= Z.of_nat (length cells) ->
  read_cells p off cnt m = Some (take (Z.to_nat cnt) (drop (Z.to_nat off) cells), m).
Proof.
  intros Hp ? ? ?. unfold read_cells, sub_cells. rewrite Hp.
  by rewrite decide_True by lia.
Qed.

Lemma write_cells_eq m p cells off vs :
  heap m !! p = Some cells ->
  0 <= off -> off + Z.of_nat (length vs) <= Z.of_nat (length cells) ->
  write_cells p off vs m =
    Some (tt, with_cells m p
                (take (Z.to_nat off) cells ++ vs ++ drop (Z.to_nat off + length vs) cells)).
Proof.
  intros Hp ? ?. unfold write_cells, upd_cells. rewrite Hp.
  by rewrite decide_True by lia.
Qed.

Lemma memmove_eq m dst doff src soff cnt cd cs :
  heap m !! dst = Some cd -> heap m !! src = Some cs ->
  0 <= doff -> 0 <= soff -> 0 <= cnt ->
  soff + cnt <= Z.of_nat (length cs) -> doff + cnt <= Z.of_nat (length cd) ->
  memmove dst doff src soff cnt m =
    Some (tt, with_cells m dst
                (take (Z.to_nat doff) cd ++
                 take (Z.to_nat cnt) (drop (Z.to_nat soff) cs) ++
                 drop (Z.to_nat doff + Z.to_nat cnt) cd)).
Proof.
  intros Hd Hs ? ? ? ? ?. unfold memmove.
  erewrite bind_eq by (by eapply read_cells_eq).
  erewrite write_cells_eq; [ | done | done | ].
  - by rewrite length_take, length_drop, Nat.min_l by lia.
  - rewrite length_take, length_drop. lia.
Qed.

Lemma memset0_eq m p cells off cnt :
  heap m !! p = Some cells ->
  0 <= off -> 0 <= cnt -> off + cnt <= Z.of_nat (length cells) ->
  memset0 p off cnt m =
    Some (tt, with_cells m p
                (take (Z.to_nat off) cells ++ replicate (Z.to_nat cnt) false ++
                 drop (Z.to_nat off + Z.to_nat cnt) cells)).
Proof.
  intros Hp ? ? ?. unfold memset0. rewrite decide_True by done.
  erewrite write_cells_eq; [ | done | done | ].
  - by rewrite length_replicate.
  - rewrite length_replicate. lia.
Qed.

Lemma fresh_block_free m : heap m !! fresh_block m = None.
Proof. unfold fresh_block. apply (not_elem_of_dom (D := gset block)). apply is_fresh. Qed.

Lemma size_wrap_small x : is_size x -> size_wrap x = x.
Proof. unfold is_size, SIZE_MAX, size_wrap. intros ?. apply Z.mod_small. lia. Qed.

Lemma mem_eta m : Mem (structs m) (heap m) = m.
Proof. by destruct m. Qed.

Lemma with_cells_id m p cells : heap m !! p = Some cells -> with_cells m p cells = m.
Proof. intros Hp. unfold with_cells. rewrite insert_id by done. apply mem_eta. Qed.

Lemma with_cells_twice m p c1 c2 :
  with_cells (with_cells m p c1) p c2 = with_cells m p c2.
Proof. unfold with_cells. cbn [structs heap]. by rewrite insert_insert_eq. Qed.

Lemma ready_with_cells m b p cells cells' :
  ready m b p cells -> length cells' = length cells ->
  ready (with_cells m p cells') b p cells'.
Proof.
  intros (Hs & Hp & Hl) Hlen. unfold ready, with_cells. cbn [structs heap].
  rewrite Hlen, lookup_insert_eq. done.
Qed.

Lemma initialized_with_cells m b p cells cells' :
  initialized m b p cells -> length cells' = length cells ->
  initialized (with_cells m p cells') b p cells'.
Proof.
  intros [Hr Hpos] Hlen. split; [by eapply ready_with_cells|]. by rewrite Hlen.
Qed.

(** ** Cell arrays *)

Ltac len_solve :=
  repeat rewrite ?length_app, ?length_take, ?length_drop, ?length_replicate;
  cbn [length]; lia.

(** Overwriting a whole array. *)
Lemma splice_all {A} (l vs : list A) n :
  (length l <= n)%nat -> take 0 l ++ vs ++ drop (0 + n) l = vs.
Proof. intros ?. rewrite take_0, drop_ge by lia. cbn. apply app_nil_r. Qed.

(** Overwriting a prefix. *)
Lemma splice_prefix {A} (l vs : list A) n :
  take 0 l ++ vs ++ drop (0 + n) l = vs ++ drop n l.
Proof. by rewrite take_0. Qed.

Lemma take_all_drop {A} (l : list A) n k :
  (length l <= n + k)%nat -> take n (drop k l) = drop k l.
Proof. intros ?. apply take_ge. rewrite length_drop. lia. Qed.

(** ** Rotations *)

Lemma rot_scratch_gone (h : gmap block (list bool)) t p c1 c2 c3 c4 :
  h !! t = None -> t <> p ->
  delete t (<[p := c4]> (<[p := c3]> (<[t := c2]> (<[t := c1]> h)))) = <[p := c4]> h.
Proof.
  intros Ht Hne. apply map_eq. intros i.
  destruct (decide (i = t)) as [->|]; [ | destruct (decide (i = p)) as [->|] ];
    by simplify_map_eq.
Qed.

Lemma bitset_lrot_run ok m b p cells n :
  initialized m b p cells -> is_size n ->
  bitset_lrot ok (Some b) n m =
    Some (let k := n mod Z.of_nat (length cells) in
          if decide (k = 0) then (BITSET_GOOD, m)
          else if ok
               then (BITSET_GOOD,
                     with_cells m p (drop (Z.to_nat k) cells ++ take (Z.to_nat k) cells))
               else (BITSET_ALLOC_ERR, m)).
Proof.
  intros [(Hs & Hp & Hl) Hpos] Hn.
  set (L := Z.of_nat (length cells)) in *.
  assert (0 <= n mod L < L) as Hk by (apply Z.mod_pos_bound; lia).
  cbv zeta. unfold bitset_lrot.
  erewrite bind_eq by (by eapply load_bits_eq). cbn [bits].
  erewrite bind_eq by (by eapply load_len_eq). cbn [len].
  unfold size_rem. rewrite decide_False by lia.
  unfold bind at 1. unfold ret at 1.
  destruct (decide (n mod L = 0)) as [|Hnz]; [done|].
  unfold bind at 1. unfold ret at 1.
  set (k := n mod L) in *.
  assert (size_sub L k = L - k) as ->.
  { apply size_wrap_small. unfold is_size in *. lia. }
  destruct ok; unfold malloc, calloc; unfold bind at 1; [ | done ].
  pose proof (fresh_block_free m) as Hfresh.
  set (t := fresh_block m) in *.
  assert (t <> p) as Hne by congruence.
  unfold memcpy. rewrite decide_False by tauto.
  erewrite bind_eq; cycle 1.
  { eapply memmove_eq; cbn [heap].
    - apply lookup_insert_eq.
    - rewrite lookup_insert_ne by done. exact Hp.
    - lia. - lia. - lia. - fold L. lia.
    - rewrite length_replicate. lia. }
  erewrite bind_eq; cycle 1.
  { eapply memmove_eq; cbn [heap with_cells].
    - rewrite lookup_insert_ne by done. rewrite lookup_insert_ne by done. exact Hp.
    - rewrite lookup_insert_ne by done. rewrite lookup_insert_ne by done. exact Hp.
    - lia. - lia. - lia. - fold L. lia. - fold L. lia. }
  rewrite decide_False by (intros [? _]; congruence).
  erewrite bind_eq; cycle 1.
  { eapply memmove_eq; cbn [heap with_cells].
    - apply lookup_insert_eq.
    - rewrite lookup_insert_ne by done. apply lookup_insert_eq.
    - lia. - lia. - lia.
    - rewrite !length_app, !length_take, !length_drop, length_replicate. lia.
    - rewrite !length_app, !length_take, !length_drop. lia. }
  unfold free. unfold bind at 1. cbn [heap with_cells structs].
  rewrite lookup_insert_ne by done. rewrite lookup_insert_ne by done.
  rewrite lookup_insert_eq. unfold ret. do 3 f_equal.
  unfold with_cells. cbn [heap structs]. f_equal.
  rewrite rot_scratch_gone by done. f_equal.
  change (Z.to_nat 0) with 0%nat.
  replace (Z.to_nat (L - k)) with (length cells - Z.to_nat k)%nat by lia.
  assert (Z.to_nat k < length cells)%nat by lia.
  rewrite (splice_all (replicate _ _)) by len_solve.
  rewrite splice_prefix, !drop_0.
  rewrite (take_all_drop cells) by lia.
  rewrite take_app_length' by len_solve.
  rewrite (drop_ge (_ ++ _)), app_nil_r by len_solve.
  by rewrite take_take, Nat.min_id.
Qed.

Lemma bitset_rrot_run ok m b p cells n :
  initialized m b p cells -> is_size n ->
  bitset_rrot ok (Some b) n m =
    Some (let k := n mod Z.of_nat (length cells) in
          let rot := Z.of_nat (length cells) - k in
          if decide (k = 0) then (BITSET_GOOD, m)
          else if ok
               then (BITSET_GOOD,
                     with_cells m p (drop (Z.to_nat rot) cells ++ take (Z.to_nat rot) cells))
               else (BITSET_ALLOC_ERR, m)).
Proof.
  intros [(Hs & Hp & Hl) Hpos] Hn.
  set (L := Z.of_nat (length cells)) in *.
  assert (0 <= n mod L < L) as Hk by (apply Z.mod_pos_bound; lia).
  cbv zeta. unfold bitset_rrot.
  erewrite bind_eq by (by eapply load_bits_eq). cbn [bits].
  erewrite bind_eq by (by eapply load_len_eq). cbn [len].
  unfold size_rem. rewrite decide_False by lia.
  unfold bind at 1. unfold ret at 1.
  destruct (decide (n mod L = 0)) as [|Hnz]; [done|].
  unfold bind at 1. unfold ret at 1.
  set (k := n mod L) in *.
  assert (size_sub L k = L - k) as ->.
  { apply size_wrap_small. unfold is_size in *. lia. }
  destruct ok; unfold malloc, calloc; unfold bind at 1; [ | done ].
  pose proof (fresh_block_free m) as Hfresh.
  set (t := fresh_block m) in *.
  assert (t <> p) as Hne by congruence.
  unfold memcpy. rewrite decide_False by tauto.
  erewrite bind_eq; cycle 1.
  { eapply memmove_eq; cbn [heap].
    - apply lookup_insert_eq.
    - rewrite lookup_insert_ne by done. exact Hp.
    - lia. - lia. - lia. - fold L. lia.
    - rewrite length_replicate. lia. }
  erewrite bind_eq; cycle 1.
  { eapply memmove_eq; cbn [heap with_cells].
    - rewrite lookup_insert_ne by done. rewrite lookup_insert_ne by done. exact Hp.
    - rewrite lookup_insert_ne by done. rewrite lookup_insert_ne by done. exact Hp.
    - lia. - lia. - lia. - fold L. lia. - fold L. lia. }
  rewrite decide_False by (intros [? _]; congruence).
  erewrite bind_eq; cycle 1.
  { eapply memmove_eq; cbn [heap with_cells].
    - apply lookup_insert_eq.
    - rewrite lookup_insert_ne by done. apply lookup_insert_eq.
    - lia. - lia. - lia.
    - len_solve.
    - len_solve. }
  unfold free. unfold bind at 1. cbn [heap with_cells structs].
  rewrite lookup_insert_ne by done. rewrite lookup_insert_ne by done.
  rewrite lookup_insert_eq. unfold ret. do 3 f_equal.
  unfold with_cells. cbn [heap structs]. f_equal.
  rewrite rot_scratch_gone by done. f_equal.
  change (Z.to_nat 0) with 0%nat.
  replace (Z.to_nat (L - k)) with (length cells - Z.to_nat k)%nat by lia.
  assert (Z.to_nat k < length cells)%nat by lia.
  rewrite (splice_all (replicate _ _)) by len_solve.
  rewrite !drop_0, splice_prefix.
  rewrite take_take, Nat.min_id.
  rewrite (take_all_drop cells) by lia.
  rewrite (drop_ge cells (Z.to_nat k + _)), app_nil_r by lia.
  by rewrite drop_app_length' by len_solve.
Qed.

(** ** Construction when the allocation fails *)

(** The three constructors write [b->len] and [b->bits] before they look at
    the result of [calloc]. *)
Lemma bitset_init_alloc_failure m b s0 n :
  structs m !! b = Some s0 -> n <> 0 ->
  bitset_init false (Some b) n m =
    Some (BITSET_ALLOC_ERR, with_struct m b (Bitset None n)).
Proof.
  intros Hb Hn. unfold bitset_init. rewrite decide_False by done.
  erewrite bind_eq by (by eapply store_len_eq).
  unfold calloc. unfold bind at 1.
  erewrite bind_eq
    by (eapply store_bits_eq; unfold with_struct; cbn [structs]; apply lookup_insert_eq).
  unfold with_struct. cbn [structs heap len]. rewrite insert_insert_eq.
  erewrite bind_eq by (eapply load_bits_eq; cbn [structs]; apply lookup_insert_eq).
  done.
Qed.

Lemma bitset_init_bstr_alloc_failure m b s0 str n :
  structs m !! b = Some s0 -> n <> 0 ->
  bitset_init_bstr false (Some b) (Some str) n m =
    Some (BITSET_ALLOC_ERR, with_struct m b (Bitset None n)).
Proof.
  intros Hb Hn. unfold bitset_init_bstr. rewrite decide_False by done.
  erewrite bind_eq by (by eapply store_len_eq).
  unfold calloc. unfold bind at 1.
  erewrite bind_eq
    by (eapply store_bits_eq; unfold with_struct; cbn [structs]; apply lookup_insert_eq).
  unfold with_struct. cbn [structs heap len]. rewrite insert_insert_eq.
  erewrite bind_eq by (eapply load_bits_eq; cbn [structs]; apply lookup_insert_eq).
  done.
Qed.

Lemma bitset_init_str_alloc_failure m b s0 str n :
  structs m !! b = Some s0 -> n <> 0 ->
  bitset_init_str false (Some b) (Some str) n m =
    Some (BITSET_ALLOC_ERR, with_struct m b (Bitset None (size_mul n CHAR_LEN))).
Proof.
  intros Hb Hn. unfold bitset_init_str. rewrite decide_False by done.
  erewrite bind_eq by (by eapply store_len_eq).
  erewrite bind_eq
    by (eapply load_len_eq; unfold with_struct; cbn [structs]; apply lookup_insert_eq).
  unfold calloc. unfold bind at 1. cbn [len].
  erewrite bind_eq
    by (eapply store_bits_eq; unfold with_struct; cbn [structs]; apply lookup_insert_eq).
  unfold with_struct. cbn [structs heap len]. rewrite insert_insert_eq.
  erewrite bind_eq by (eapply load_bits_eq; cbn [structs]; apply lookup_insert_eq).
  done.
Qed.

(** Where [n * CHAR_LEN] fits a [size_t], the recorded length is [n * 8]. *)
Lemma size_mul_exact n : 0 <= n -> n * CHAR_LEN <= SIZE_MAX -> size_mul n CHAR_LEN = n * 8.
Proof.
  intros ? ?. unfold size_mul. rewrite size_wrap_small; [done|].
  unfold is_size, CHAR_LEN in *. lia.
Qed.

(** C10. When the allocation fails inside a constructor called with a
    non-null handle (and string) and [n > 0], the call returns
    [BITSET_ALLOC_ERR] having already overwritten the struct: its buffer
    pointer is null and its [len] is the new length, which is [n] for
    [bitset_init] and [bitset_init_bstr] and the [size_t] product
    [n * CHAR_LEN] for [bitset_init_str], equal to [n * 8] whenever that
    fits a [size_t].  The contents the struct had before the call are gone,
    whatever they were; a buffer it pointed to stays allocated with its
    cells.  No other struct and no block changes, and the bitset is left
    uninitialized with the new length recorded: the queries answer 0 and
    false, and the operators, shifts and rotations [BITSET_NULL_ERR]. *)
Theorem constructors_failure_overwrites m b s0 str n :
  structs m !! b = Some s0 -> 0 < n ->
  let left_as l := with_struct m b (Bitset None l) in
  (bitset_init false (Some b) n m = Some (BITSET_ALLOC_ERR, left_as n) /\
   bitset_init_bstr false (Some b) (Some str) n m = Some (BITSET_ALLOC_ERR, left_as n) /\
   bitset_init_str false (Some b) (Some str) n m =
     Some (BITSET_ALLOC_ERR, left_as (size_mul n CHAR_LEN)) /\
   (n * CHAR_LEN <= SIZE_MAX -> size_mul n CHAR_LEN = n * 8)) /\
  forall l,
    structs (left_as l) !! b = Some (Bitset None l) /\
    (s0 <> Bitset None l -> left_as l <> m) /\
    (forall b', b' <> b -> structs (left_as l) !! b' = structs m !! b') /\
    heap (left_as l) = heap m /\
    bitset_true_len (Some b) (left_as l) = Some (0, left_as l) /\
    bitset_any (Some b) (left_as l) = Some (false, left_as l) /\
    bitset_all (Some b) (left_as l) = Some (false, left_as l) /\
    (forall op r, bitset_binop op (Some b) r (left_as l) = Some (BITSET_NULL_ERR, left_as l)) /\
    bitset_not (Some b) (left_as l) = Some (BITSET_NULL_ERR, left_as l) /\
    (forall k, bitset_lsh (Some b) k (left_as l) = Some (BITSET_NULL_ERR, left_as l) /\
               bitset_rsh (Some b) k (left_as l) = Some (BITSET_NULL_ERR, left_as l)) /\
    (forall ok k, bitset_lrot ok (Some b) k (left_as l) = Some (BITSET_NULL_ERR, left_as l) /\
                  bitset_rrot ok (Some b) k (left_as l) = Some (BITSET_NULL_ERR, left_as l)).
Proof.
  intros Hb Hn left_as.
  assert (n <> 0) as Hn0 by lia.
  split.
  { split; [by eapply bitset_init_alloc_failure|].
    split; [by eapply bitset_init_bstr_alloc_failure|].
    split; [by eapply bitset_init_str_alloc_failure|].
    intros Hfit. apply size_mul_exact; [lia|done]. }
  intros l.
  assert (structs (left_as l) !! b = Some (Bitset None l)) as Hl
    by (unfold left_as, with_struct; cbn [structs]; apply lookup_insert_eq).
  split; [done|].
  split.
  { intros Hs0 Heq. rewrite Heq, Hb in Hl. congruence. }
  split.
  { intros b' Hb'. unfold left_as, with_struct. cbn [structs].
    by apply lookup_insert_ne. }
  split; [done|].
  unfold bitset_true_len, bitset_any, bitset_all, bitset_binop, bitset_not,
    bitset_lsh, bitset_rsh, bitset_lrot, bitset_rrot.
  split_and!; intros; try split;
    try destruct r; try done;
    by erewrite bind_eq by (by eapply load_bits_eq).
Qed.

(** ** Construction from a bit string *)

(** The loop, started at index [i] on the rest of a terminated string. *)
Lemma bstr_fill_run chars : forall rest m q cells n (i : nat),
  NUL ∉ chars ->
  heap m !! q = Some cells -> n <= Z.of_nat (length cells) ->
  bstr_fill q n (Z.of_nat i) (chars ++ NUL :: rest) m =
    Some (tt, with_cells m q
                (take i cells ++
                 ((fun c => bool_decide (c = "1"%char)) <$> take (Z.to_nat n - i) chars) ++
                 drop (i + Nat.min (Z.to_nat n - i) (length chars)) cells)).
Proof.
  induction chars as [|c chars IH]; intros rest m q cells n i Hnul Hq Hn.
  - cbn [app bstr_fill]. rewrite take_nil, Nat.min_0_r, Nat.add_0_r. cbn [fmap list_fmap app].
    rewrite take_drop, with_cells_id by done.
    destruct (decide (Z.of_nat i < n)); [|done]. by rewrite decide_True by done.
  - cbn [app bstr_fill]. destruct (decide (Z.of_nat i < n)) as [Hi|Hi].
    + assert (c <> NUL) as Hc by (intros ->; apply Hnul; left).
      assert (NUL ∉ chars) as Hnul' by (intros ?; apply Hnul; by right).
      rewrite decide_False by done. unfold write_cell.
      erewrite bind_eq by (eapply write_cells_eq; [done | lia | cbn [length]; lia]).
      replace (Z.of_nat i + 1) with (Z.of_nat (S i)) by lia.
      erewrite IH; [ | done | apply lookup_insert_eq | len_solve ].
      rewrite with_cells_twice. do 3 f_equal.
      rewrite Nat2Z.id. cbn [length].
      replace (Z.to_nat n - i)%nat with (S (Z.to_nat n - S i)) by lia.
      assert (i < length cells)%nat by lia.
      rewrite (assoc_L (++) (take i cells) [_]).
      rewrite take_app_length' by len_solve.
      rewrite drop_app_ge by len_solve. rewrite drop_drop.
      rewrite firstn_cons, fmap_cons, <- (assoc_L (++)). cbn [app].
      do 3 f_equal. f_equal. len_solve.
    + replace (Z.to_nat n - i)%nat with 0%nat by lia.
      cbn [take fmap list_fmap app Nat.min]. rewrite Nat.add_0_r.
      by rewrite take_drop, with_cells_id by done.
Qed.

Lemma bitset_init_bstr_run m b s0 chars rest n :
  structs m !! b = Some s0 -> NUL ∉ chars -> 0 < n ->
  bitset_init_bstr true (Some b) (Some (chars ++ NUL :: rest)) n m =
    Some (BITSET_GOOD,
          Mem (<[b := Bitset (Some (fresh_block m)) n]> (structs m))
              (<[fresh_block m :=
                   ((fun c => bool_decide (c = "1"%char)) <$> take (Z.to_nat n) chars) ++
                   replicate (Z.to_nat n - length chars) false]> (heap m))).
Proof.
  intros Hb Hnul Hn. unfold bitset_init_bstr.
  rewrite decide_False by lia.
  erewrite bind_eq by (by eapply store_len_eq).
  unfold calloc. unfold bind at 1.
  change (fresh_block (with_struct m b _)) with (fresh_block m).
  unfold with_struct at 1. cbn [structs heap].
  erewrite bind_eq by (eapply store_bits_eq; cbn [structs]; apply lookup_insert_eq).
  unfold with_struct. cbn [structs heap len]. rewrite insert_insert_eq.
  erewrite bind_eq by (eapply load_bits_eq; cbn [structs]; apply lookup_insert_eq).
  cbn [bits].
  erewrite bind_eq; cycle 1.
  { eapply (bstr_fill_run chars rest _ _ _ n 0%nat); [done | | ].
    - cbn [heap]. apply lookup_insert_eq.
    - rewrite length_replicate. lia. }
  unfold ret, with_cells. cbn [structs heap]. rewrite insert_insert_eq.
  do 4 f_equal. rewrite take_0, Nat.sub_0_r. cbn [app]. f_equal.
  rewrite drop_replicate. f_equal. lia.
Qed.

(** C7. For a non-null handle, a terminated string and [n > 0], construction
    from a bit string succeeds when the allocation does; the bitset then has
    [n] cells, of which cell [i] is true exactly when the string has a
    character at [i], before its terminator, and that character is ['1'].
    In particular the string "101" with [n = 5] gives [1,0,1,0,0]. *)
Theorem bitset_init_bstr_cells m b s0 chars rest n :
  structs m !! b = Some s0 -> NUL ∉ chars -> 0 < n ->
  (exists q cells,
     bitset_init_bstr true (Some b) (Some (chars ++ NUL :: rest)) n m =
       Some (BITSET_GOOD,
             Mem (<[b := Bitset (Some q) n]> (structs m)) (<[q := cells]> (heap m))) /\
     heap m !! q = None /\
     Z.of_nat (length cells) = n /\
     forall i, (i < length cells)%nat ->
       cells !! i = Some (bool_decide (chars !! i = Some "1"%char))) /\
  bitset_init_bstr true (Some b) (Some ["1"; "0"; "1"; NUL]%char) 5 m =
    Some (BITSET_GOOD,
          Mem (<[b := Bitset (Some (fresh_block m)) 5]> (structs m))
              (<[fresh_block m := [true; false; true; false; false]]> (heap m))).
Proof.
  intros Hb Hnul Hn. split.
  - eexists _, _. split; [by eapply bitset_init_bstr_run|].
    split; [apply fresh_block_free|].
    assert (length (take (Z.to_nat n) chars) + (Z.to_nat n - length chars)
            = Z.to_nat n)%nat as Hlen by len_solve.
    split; [rewrite length_app, length_fmap, length_replicate; lia|].
    intros i Hi.
    rewrite length_app, length_fmap, length_replicate, Hlen in Hi.
    destruct (decide (i < length chars)%nat) as [Hlt|Hge].
    + rewrite lookup_app_l by (rewrite length_fmap; len_solve).
      rewrite list_lookup_fmap, lookup_take_lt by lia.
      destruct (lookup_lt_is_Some_2 chars i Hlt) as [c Hc]. rewrite Hc.
      cbn [fmap option_fmap option_map]. f_equal.
      apply bool_decide_ext. split; congruence.
    + rewrite lookup_app_r by (rewrite length_fmap; len_solve).
      rewrite lookup_replicate_2 by (rewrite length_fmap; len_solve).
      rewrite lookup_ge_None_2 by lia. by rewrite bool_decide_eq_false_2.
  - apply (bitset_init_bstr_run m b s0 ["1"; "0"; "1"]%char [] 5 Hb); [|lia].
    intros Hin. by repeat (apply elem_of_cons in Hin as [?|Hin]; [done|]);
      apply elem_of_nil in Hin.
Qed.

(** ** Construction from a byte string *)

(** [bits_from_char] never leaves its array nor runs out of fuel, and returns
    the character's bits, most significant first. *)
Lemma bits_from_char_msb c : bits_from_char c = Some (msb_first c).
Proof. destruct c as [[] [] [] [] [] [] [] []]; vm_compute; reflexivity. Qed.

Lemma length_msb_first c : length (msb_first c) = 8%nat.
Proof. reflexivity. Qed.

(** The loop, started at index [i] on the rest of a terminated string, when
    [n * CHAR_LEN] does not wrap. *)
Lemma str_fill_run chars : forall rest m q cells n (i : nat),
  NUL ∉ chars ->
  heap m !! q = Some cells ->
  n * 8 <= Z.of_nat (length cells) -> n * 8 <= SIZE_MAX ->
  str_fill q n (Z.of_nat i) (chars ++ NUL :: rest) m =
    Some (tt, with_cells m q
                (take (8 * i) cells ++
                 concat (msb_first <$> take (Z.to_nat n - i) chars) ++
                 drop (8 * i + 8 * Nat.min (Z.to_nat n - i) (length chars)) cells)).
Proof.
  induction chars as [|c chars IH]; intros rest m q cells n i Hnul Hq Hn Hmax.
  - cbn [app str_fill]. rewrite take_nil, Nat.min_0_r, Nat.mul_0_r, Nat.add_0_r.
    cbn [fmap list_fmap concat app].
    rewrite take_drop, with_cells_id by done.
    destruct (decide (Z.of_nat i < n)); [|done]. by rewrite decide_True by done.
  - cbn [app str_fill]. destruct (decide (Z.of_nat i < n)) as [Hi|Hi].
    + assert (c <> NUL) as Hc by (intros ->; apply Hnul; left).
      assert (NUL ∉ chars) as Hnul' by (intros ?; apply Hnul; by right).
      rewrite decide_False by done. rewrite bits_from_char_msb.
      assert (size_mul (Z.of_nat i) CHAR_LEN = Z.of_nat (8 * i)) as ->.
      { rewrite size_mul_exact by (unfold CHAR_LEN; lia). lia. }
      erewrite bind_eq
        by (eapply write_cells_eq; [done | lia | rewrite length_msb_first; lia]).
      replace (Z.of_nat i + 1) with (Z.of_nat (S i)) by lia.
      erewrite IH; [ | done | apply lookup_insert_eq | | done ].
      2: { rewrite !length_app, length_take, length_drop, length_msb_first. lia. }
      rewrite with_cells_twice. do 3 f_equal.
      rewrite Nat2Z.id, length_msb_first. cbn [length].
      replace (Z.to_nat n - i)%nat with (S (Z.to_nat n - S i)) by lia.
      assert (8 * i + 8 <= length cells)%nat by lia.
      rewrite (assoc_L (++) (take (8 * i) cells) (msb_first c)).
      rewrite take_app_length' by (rewrite length_app, length_take, length_msb_first; lia).
      rewrite drop_app_ge by (rewrite length_app, length_take, length_msb_first; lia).
      rewrite drop_drop.
      rewrite firstn_cons, fmap_cons. cbn [concat].
      rewrite <- !(assoc_L (++)). do 3 f_equal. f_equal.
      rewrite length_app, length_take, length_msb_first. lia.
    + replace (Z.to_nat n - i)%nat with 0%nat by lia.
      cbn [take fmap list_fmap concat app Nat.min]. rewrite Nat.mul_0_r, Nat.add_0_r.
      by rewrite take_drop, with_cells_id by done.
Qed.

(** Successful construction from a byte string, when [n * CHAR_LEN] does
    not wrap: [n * 8] cells, the characters before the terminator expanded
    most significant bit first, zeroes after them. *)
Lemma bitset_init_str_run m b s0 chars rest n :
  structs m !! b = Some s0 -> NUL ∉ chars -> 0 < n -> n * 8 <= SIZE_MAX ->
  bitset_init_str true (Some b) (Some (chars ++ NUL :: rest)) n m =
    Some (BITSET_GOOD,
          Mem (<[b := Bitset (Some (fresh_block m)) (n * 8)]> (structs m))
              (<[fresh_block m :=
                   concat (msb_first <$> take (Z.to_nat n) chars) ++
                   replicate (8 * (Z.to_nat n - length chars)) false]> (heap m))).
Proof.
  intros Hb Hnul Hn Hmax. unfold bitset_init_str.
  rewrite decide_False by lia.
  rewrite size_mul_exact by (unfold CHAR_LEN; lia).
  erewrite bind_eq by (by eapply store_len_eq).
  erewrite bind_eq
    by (eapply load_len_eq; unfold with_struct; cbn [structs]; apply lookup_insert_eq).
  unfold calloc. unfold bind at 1. cbn [len].
  change (fresh_block (with_struct m b _)) with (fresh_block m).
  unfold with_struct at 1. cbn [structs heap].
  erewrite bind_eq by (eapply store_bits_eq; cbn [structs]; apply lookup_insert_eq).
  unfold with_struct. cbn [structs heap len]. rewrite insert_insert_eq.
  erewrite bind_eq by (eapply load_bits_eq; cbn [structs]; apply lookup_insert_eq).
  cbn [bits].
  erewrite bind_eq; cycle 1.
  { eapply (str_fill_run chars rest _ _ _ n 0%nat); [done | | | done].
    - cbn [heap]. apply lookup_insert_eq.
    - rewrite length_replicate. lia. }
  unfold ret, with_cells. cbn [structs heap]. rewrite insert_insert_eq.
  do 4 f_equal. rewrite Nat.mul_0_r, take_0, Nat.sub_0_r. cbn [app]. f_equal.
  rewrite drop_replicate. f_equal. lia.
Qed.

(** The character ['A'] (0x41) over length 1. *)
Lemma bitset_init_str_A m b s0 :
  structs m !! b = Some s0 -> 8 <= SIZE_MAX ->
  bitset_init_str true (Some b) (Some ["A"; NUL]%char) 1 m =
    Some (BITSET_GOOD,
          Mem (<[b := Bitset (Some (fresh_block m)) 8]> (structs m))
              (<[fresh_block m := [false; true; false; false; false; false; false; true]]>
                 (heap m))).
Proof.
  intros Hb Hmax.
  apply (bitset_init_str_run m b s0 ["A"]%char [] 1 Hb); [|lia|lia].
  intros Hin. apply elem_of_cons in Hin as [Hin|Hin]; [discriminate Hin|].
  by apply elem_of_nil in Hin.
Qed.

(** ** Boolean operators *)

Lemma bitset_binop_length_mismatch op m l r sl sr :
  structs m !! l = Some sl -> structs m !! r = Some sr ->
  is_Some (bits sl) -> is_Some (bits sr) -> len sl <> len sr ->
  bitset_binop op (Some l) (Some r) m = Some (BITSET_LENGTH_ERR, m).
Proof.
  intros Hl Hr [lp Hlp] [rp Hrp] Hne. unfold bitset_binop.
  erewrite bind_eq by (by eapply load_bits_eq). rewrite Hlp.
  erewrite bind_eq by (by eapply load_bits_eq). rewrite Hrp.
  erewrite bind_eq by (by eapply load_len_eq).
  erewrite bind_eq by (by eapply load_len_eq).
  by rewrite decide_True by done.
Qed.

(** C5. On two initialized bitsets of different lengths, each of
    [bitset_and], [bitset_or] and [bitset_xor] returns [BITSET_LENGTH_ERR]
    and leaves the memory, hence both operands, as it was. *)
Theorem bitset_binop_length_error m l r sl sr :
  structs m !! l = Some sl -> structs m !! r = Some sr ->
  is_Some (bits sl) -> is_Some (bits sr) -> len sl <> len sr ->
  bitset_and (Some l) (Some r) m = Some (BITSET_LENGTH_ERR, m) /\
  bitset_or (Some l) (Some r) m = Some (BITSET_LENGTH_ERR, m) /\
  bitset_xor (Some l) (Some r) m = Some (BITSET_LENGTH_ERR, m).
Proof.
  intros Hl Hr Hlp Hrp Hne. unfold bitset_and, bitset_or, bitset_xor.
  repeat split; by eapply bitset_binop_length_mismatch.
Qed.

(** ** Loops over the cells *)

(** An invariant of the memory that the body keeps is kept by the loop,
    which then returns. *)
Lemma for_loop_inv (P : mem -> Prop) body : forall k i m,
  (forall j m1, i <= j < i + Z.of_nat k -> P m1 ->
     exists m2, body j m1 = Some (tt, m2) /\ P m2) ->
  P m ->
  exists m', for_loop k i body m = Some (tt, m') /\ P m'.
Proof.
  induction k as [|k IH]; intros i m Hbody HP.
  - exists m. done.
  - cbn [for_loop].
    destruct (Hbody i m) as (m1 & Hrun & HP1); [lia | done |].
    erewrite bind_eq by done.
    apply IH; [|done]. intros j m2 Hj. apply Hbody. lia.
Qed.

Lemma read_cell_in m p cells i :
  heap m !! p = Some cells -> 0 <= i < Z.of_nat (length cells) ->
  exists v, read_cell p i m = Some (v, m).
Proof.
  intros Hp Hi. unfold read_cell.
  erewrite bind_eq by (eapply read_cells_eq; [done | lia ..]).
  destruct (lookup_lt_is_Some_2 cells (Z.to_nat i)) as [v Hv]; [lia|].
  exists v. change (Z.to_nat 1) with 1%nat.
  by rewrite (drop_S _ v) by done.
Qed.

Lemma write_cell_inv m0 lp rp n m i v :
  cells_inv m0 lp rp n m -> 0 <= i < n ->
  exists m', write_cell lp i v m = Some (tt, m') /\ cells_inv m0 lp rp n m'.
Proof.
  intros (Hs & (cl & Hl & Hln) & (cr & Hr & Hrn)) Hi. unfold write_cell.
  erewrite write_cells_eq; [ | done | lia | cbn [length]; lia ].
  eexists. split; [done|]. unfold cells_inv, with_cells. cbn [structs heap].
  split; [done|].
  assert (forall c : list bool, Z.of_nat (length c) = n ->
            Z.of_nat (length (take (Z.to_nat i) c ++ [v] ++
                              drop (Z.to_nat i + length [v]) c)) = n) as Hsame
    by (intros c Hc; len_solve).
  split.
  - eexists. rewrite lookup_insert_eq. split; [done|]. by apply Hsame.
  - destruct (decide (lp = rp)) as [<-|Hne].
    + eexists. rewrite lookup_insert_eq. split; [done|]. by apply Hsame.
    + exists cr. by rewrite lookup_insert_ne by done.
Qed.

Lemma usable_initialized m b p cells : initialized m b p cells -> usable m b.
Proof. intros [(Hb & Hp & _) _]. eexists. split; [done|]. cbn [bits]. by exists cells. Qed.

Lemma bitset_binop_total op m x y :
  usable m x -> usable m y ->
  exists st m', bitset_binop op (Some x) (Some y) m = Some (st, m') /\
                structs m' = structs m.
Proof.
  intros (sx & Hx & Hux) (sy & Hy & Huy). unfold bitset_binop.
  erewrite bind_eq by (by eapply load_bits_eq).
  destruct (bits sx) as [xp|] eqn:Hxp; [|by exists BITSET_NULL_ERR, m].
  erewrite bind_eq by (by eapply load_bits_eq).
  destruct (bits sy) as [yp|] eqn:Hyp; [|by exists BITSET_NULL_ERR, m].
  erewrite bind_eq by (by eapply load_len_eq).
  erewrite bind_eq by (by eapply load_len_eq).
  destruct (decide (len sx <> len sy)) as [|Heq]; [by exists BITSET_LENGTH_ERR, m|].
  apply dec_stable in Heq.
  destruct Hux as (cx & Hcx & Hlx). destruct Huy as (cy & Hcy & Hly).
  destruct (for_loop_inv (cells_inv m xp yp (len sx))
              (fun i => let* a := read_cell xp i in
                        let* b := read_cell yp i in
                        write_cell xp i (op a b))
              (Z.to_nat (len sx)) 0 m) as (m' & Hrun & Hinv).
  - intros j m1 Hj Hinv.
    pose proof Hinv as (_ & (c1 & Hc1 & Hn1) & (c2 & Hc2 & Hn2)).
    destruct (read_cell_in m1 xp c1 j) as [a Ha]; [done | lia |].
    destruct (read_cell_in m1 yp c2 j) as [b Hb]; [done | lia |].
    erewrite bind_eq by done. erewrite bind_eq by done.
    apply write_cell_inv; [done | lia].
  - split; [done|]. split; [by exists cx | exists cy; split; [done | lia]].
  - unfold for_cells. erewrite bind_eq by done.
    exists BITSET_GOOD, m'. split; [done|]. apply Hinv.
Qed.

Lemma bitset_binop_operand op m b r :
  usable m b -> operand m r ->
  (exists st m', bitset_binop op (Some b) r m = Some (st, m') /\ structs m' = structs m) /\
  (exists st m', bitset_binop op r (Some b) m = Some (st, m') /\ structs m' = structs m).
Proof.
  intros Hb Hr. destruct r as [r|]; [|split; by exists BITSET_NULL_ERR, m].
  split; by apply bitset_binop_total.
Qed.

Lemma bitset_not_total m b :
  usable m b ->
  exists st m', bitset_not (Some b) m = Some (st, m') /\ structs m' = structs m.
Proof.
  intros (s & Hb & Hu). unfold bitset_not.
  erewrite bind_eq by (by eapply load_bits_eq).
  destruct (bits s) as [p|] eqn:Hp; [|by exists BITSET_NULL_ERR, m].
  erewrite bind_eq by (by eapply load_len_eq).
  destruct Hu as (c & Hc & Hl).
  destruct (for_loop_inv (cells_inv m p p (len s))
              (fun i => let* x := read_cell p i in
                        write_cell p i (if x then false else true))
              (Z.to_nat (len s)) 0 m) as (m' & Hrun & Hinv).
  - intros j m1 Hj Hinv.
    pose proof Hinv as (_ & (c1 & Hc1 & Hn1) & _).
    destruct (read_cell_in m1 p c1 j) as [a Ha]; [done | lia |].
    erewrite bind_eq by done.
    apply write_cell_inv; [done | lia].
  - split; [done|]. split; by exists c.
  - unfold for_cells. erewrite bind_eq by done.
    exists BITSET_GOOD, m'. split; [done|]. apply Hinv.
Qed.

Lemma bitset_reset_total m b :
  usable m b ->
  exists u m', bitset_reset (Some b) m = Some (u, m') /\ structs m' = structs m.
Proof.
  intros (s & Hb & Hu). unfold bitset_reset.
  erewrite bind_eq by (by eapply load_bits_eq).
  destruct (bits s) as [p|] eqn:Hp; [|by exists tt, m].
  erewrite bind_eq by (by eapply load_len_eq).
  destruct Hu as (c & Hc & Hl).
  destruct (for_loop_inv (cells_inv m p p (len s))
              (fun i => write_cell p i false)
              (Z.to_nat (len s)) 0 m) as (m' & Hrun & Hinv).
  - intros j m1 Hj Hinv. apply write_cell_inv; [done | lia].
  - split; [done|]. split; by exists c.
  - unfold for_cells. exists tt, m'. split; [done|]. apply Hinv.
Qed.

(** ** Shifts *)

Lemma bitset_lsh_run m b p cells n :
  ready m b p cells -> is_size n ->
  bitset_lsh (Some b) n m =
    Some (BITSET_GOOD,
          if decide (n = 0) then m
          else if decide (n >= Z.of_nat (length cells))
               then with_cells m p (replicate (length cells) false)
               else with_cells m p (drop (Z.to_nat n) cells ++ replicate (Z.to_nat n) false)).
Proof.
  intros (Hs & Hp & Hl) Hn.
  set (L := Z.of_nat (length cells)) in *.
  unfold is_size in Hl, Hn. unfold bitset_lsh.
  erewrite bind_eq by (by eapply load_bits_eq). cbn [bits].
  destruct (decide (n = 0)) as [|Hn0]; [done|].
  erewrite bind_eq by (by eapply load_len_eq). cbn [len].
  destruct (decide (n >= L)) as [Hge|Hlt].
  - erewrite bind_eq by (eapply memset0_eq; [done | lia ..]).
    unfold ret. do 3 f_equal.
    change (Z.to_nat 0) with 0%nat. unfold L. rewrite Nat2Z.id.
    by apply splice_all.
  - assert (size_sub L n = L - n) as ->.
    { apply size_wrap_small. unfold is_size. lia. }
    erewrite bind_eq; cycle 1.
    { erewrite bind_eq by (eapply memmove_eq; [done | done | fold L; lia ..]).
      eapply memset0_eq; cbn [with_cells heap].
      - apply lookup_insert_eq.
      - lia. - lia.
      - len_solve. }
    unfold ret. do 2 f_equal. rewrite with_cells_twice. f_equal.
    change (Z.to_nat 0) with 0%nat.
    replace (Z.to_nat (L - n)) with (length cells - Z.to_nat n)%nat by lia.
    assert (Z.to_nat n < length cells)%nat by lia.
    rewrite splice_prefix, (take_all_drop cells) by lia.
    rewrite take_app_length' by len_solve.
    by rewrite (drop_ge (_ ++ _)), app_nil_r by len_solve.
Qed.

Lemma bitset_rsh_run m b p cells n :
  ready m b p cells -> is_size n ->
  bitset_rsh (Some b) n m =
    Some (BITSET_GOOD,
          if decide (n = 0) then m
          else if decide (n >= Z.of_nat (length cells))
               then with_cells m p (replicate (length cells) false)
               else with_cells m p
                      (replicate (Z.to_nat n) false ++
                       take (length cells - Z.to_nat n) cells)).
Proof.
  intros (Hs & Hp & Hl) Hn.
  set (L := Z.of_nat (length cells)) in *.
  unfold is_size in Hl, Hn. unfold bitset_rsh.
  erewrite bind_eq by (by eapply load_bits_eq). cbn [bits].
  destruct (decide (n = 0)) as [|Hn0]; [done|].
  erewrite bind_eq by (by eapply load_len_eq). cbn [len].
  destruct (decide (n >= L)) as [Hge|Hlt].
  - erewrite bind_eq by (eapply memset0_eq; [done | lia ..]).
    unfold ret. do 3 f_equal.
    change (Z.to_nat 0) with 0%nat. unfold L. rewrite Nat2Z.id.
    by apply splice_all.
  - assert (size_sub L n = L - n) as ->.
    { apply size_wrap_small. unfold is_size. lia. }
    erewrite bind_eq; cycle 1.
    { erewrite bind_eq by (eapply memmove_eq; [done | done | fold L; lia ..]).
      eapply memset0_eq; cbn [with_cells heap].
      - apply lookup_insert_eq.
      - lia. - lia.
      - len_solve. }
    unfold ret. do 2 f_equal. rewrite with_cells_twice. f_equal.
    change (Z.to_nat 0) with 0%nat.
    replace (Z.to_nat (L - n)) with (length cells - Z.to_nat n)%nat by lia.
    assert (Z.to_nat n < length cells)%nat by lia.
    rewrite splice_prefix, drop_0.
    rewrite (drop_ge cells (Z.to_nat n + _)), app_nil_r by lia.
    by rewrite drop_app_length' by len_solve.
Qed.

(** ** What the shifts do *)

(** C2. For an initialized bitset of length [len] and a shift amount [n],
    [bitset_lsh] and [bitset_rsh] return success.  With [n = 0] nothing
    changes; with [n >= len] every cell becomes false; otherwise the left
    shift moves the cells [n, len) down to [0, len - n) and clears the upper
    [n] cells, and the right shift moves the cells [0, len - n) up to
    [n, len) and clears the lower [n] cells. *)
Theorem bitset_shift_zero_fills m b p cells n :
  ready m b p cells -> is_size n ->
  (n = 0 ->
   bitset_lsh (Some b) n m = Some (BITSET_GOOD, m) /\
   bitset_rsh (Some b) n m = Some (BITSET_GOOD, m)) /\
  (Z.of_nat (length cells) <= n ->
   bitset_lsh (Some b) n m =
     Some (BITSET_GOOD, with_cells m p (replicate (length cells) false)) /\
   bitset_rsh (Some b) n m =
     Some (BITSET_GOOD, with_cells m p (replicate (length cells) false))) /\
  (0 < n < Z.of_nat (length cells) ->
   bitset_lsh (Some b) n m =
     Some (BITSET_GOOD,
           with_cells m p (drop (Z.to_nat n) cells ++ replicate (Z.to_nat n) false)) /\
   bitset_rsh (Some b) n m =
     Some (BITSET_GOOD,
           with_cells m p (replicate (Z.to_nat n) false ++
                           take (length cells - Z.to_nat n) cells))).
Proof.
  intros Hr Hn.
  rewrite (bitset_lsh_run m b p cells n), (bitset_rsh_run m b p cells n) by done.
  split; [|split].
  - intros ->. by rewrite decide_True by done.
  - intros Hge. destruct (decide (n = 0)) as [->|Hn0].
    + destruct cells; [|simpl in Hge; lia].
      destruct Hr as (_ & Hp & _). cbn [length replicate].
      by rewrite (with_cells_id m p []) by done.
    + by rewrite !decide_True by lia.
  - intros [Hpos Hlt]. by rewrite !decide_False by lia.
Qed.

(** ** What the rotations do *)

(** C1. For an initialized bitset of length [len] and a rotation amount [n],
    with [k = n mod len]: when [k = 0], [bitset_lrot] returns success and
    changes nothing; otherwise, when the scratch allocation succeeds, it
    returns success, the cells [k, len) slide down to [0, len - k), the cells
    [0, k) become the tail, and the new cells are a permutation of the old
    ones. *)
Theorem bitset_lrot_rotates m b p cells n :
  initialized m b p cells -> is_size n ->
  let k := Z.to_nat (n mod Z.of_nat (length cells)) in
  (k = 0%nat -> forall ok, bitset_lrot ok (Some b) n m = Some (BITSET_GOOD, m)) /\
  (k <> 0%nat ->
   exists cells',
     bitset_lrot true (Some b) n m = Some (BITSET_GOOD, with_cells m p cells') /\
     length cells' = length cells /\
     (forall i, (i < length cells - k)%nat -> cells' !! i = cells !! (k + i)%nat) /\
     (forall i, (i < k)%nat -> cells' !! (length cells - k + i)%nat = cells !! i) /\
     cells' ≡ₚ cells).
Proof.
  intros Hinit Hn k.
  assert (0 <= n mod Z.of_nat (length cells) < Z.of_nat (length cells)) as Hk.
  { apply Z.mod_pos_bound. apply Hinit. }
  split.
  - intros Hk0 ok. rewrite (bitset_lrot_run ok m b p cells n) by done.
    cbv zeta. rewrite decide_True by lia. done.
  - intros Hk0. exists (drop k cells ++ take k cells).
    rewrite (bitset_lrot_run true m b p cells n) by done.
    cbv zeta. rewrite decide_False by lia.
    assert (k < length cells)%nat by lia.
    split; [done|]. split; [len_solve|]. split; [|split].
    + intros i Hi. rewrite lookup_app_l by len_solve. apply lookup_drop.
    + intros i Hi. rewrite lookup_app_r by len_solve.
      rewrite length_drop. rewrite lookup_take_lt by lia. f_equal. lia.
    + rewrite Permutation_app_comm. by rewrite take_drop.
Qed.

(** C3. Rotating an initialized bitset left by [k] and then right by the same
    [k] restores the memory, whenever both calls succeed; and both calls do
    succeed when their scratch allocations do. *)
Theorem bitset_lrot_rrot_restores m b p cells k :
  initialized m b p cells -> is_size k ->
  (exists m1, bitset_lrot true (Some b) k m = Some (BITSET_GOOD, m1) /\
              bitset_rrot true (Some b) k m1 = Some (BITSET_GOOD, m)) /\
  (forall ok1 ok2 m1 m2,
     bitset_lrot ok1 (Some b) k m = Some (BITSET_GOOD, m1) ->
     bitset_rrot ok2 (Some b) k m1 = Some (BITSET_GOOD, m2) ->
     m2 = m).
Proof.
  intros Hinit Hk.
  set (L := Z.of_nat (length cells)).
  assert (0 <= k mod L < L) as Hr by (apply Z.mod_pos_bound; apply Hinit).
  set (cells1 := drop (Z.to_nat (k mod L)) cells ++ take (Z.to_nat (k mod L)) cells).
  assert (length cells1 = length cells) as Hlen1 by (unfold cells1; len_solve).
  assert (initialized (with_cells m p cells1) b p cells1) as Hinit1
    by (by eapply initialized_with_cells).
  assert (with_cells (with_cells m p cells1) p
            (drop (Z.to_nat (L - k mod L)) cells1 ++
             take (Z.to_nat (L - k mod L)) cells1) = m) as Hback.
  { rewrite with_cells_twice. apply with_cells_id.
    pose proof Hinit as [(_ & Hp & _) _]. rewrite Hp. f_equal. unfold cells1.
    rewrite drop_app_length', take_app_length' by len_solve.
    symmetry. apply take_drop. }
  split.
  - rewrite (bitset_lrot_run true m b p cells k) by done. cbv zeta. fold L.
    destruct (decide (k mod L = 0)) as [H0|H0].
    + exists m. split; [done|].
      rewrite (bitset_rrot_run true m b p cells k) by done.
      cbv zeta. fold L. by rewrite decide_True by done.
    + exists (with_cells m p cells1). split; [done|].
      rewrite (bitset_rrot_run true _ b p cells1 k) by done.
      cbv zeta. rewrite Hlen1. fold L. rewrite decide_False by done.
      by rewrite Hback.
  - intros ok1 ok2 m1 m2 H1 H2.
    rewrite (bitset_lrot_run ok1 m b p cells k) in H1 by done.
    cbv zeta in H1. fold L in H1.
    destruct (decide (k mod L = 0)) as [H0|H0].
    + injection H1 as <-.
      rewrite (bitset_rrot_run ok2 m b p cells k) in H2 by done.
      cbv zeta in H2. fold L in H2. rewrite decide_True in H2 by done. congruence.
    + destruct ok1; [|discriminate]. injection H1 as <-.
      rewrite (bitset_rrot_run ok2 _ b p cells1 k) in H2 by done.
      cbv zeta in H2. rewrite Hlen1 in H2. fold L in H2.
      rewrite decide_False in H2 by done.
      destruct ok2; [|discriminate]. injection H2 as <-. exact Hback.
Qed.

(** C4. When the scratch allocation of [bitset_lrot] or [bitset_rrot] fails,
    the call returns [BITSET_ALLOC_ERR] and the memory, hence every cell and
    the length of the bitset, is what it was.  The allocation is attempted
    when the buffer is non-null and [n mod len] is not zero. *)
Theorem bitset_rot_alloc_failure m b s p n :
  structs m !! b = Some s -> bits s = Some p ->
  len s <> 0 -> n mod len s <> 0 ->
  bitset_lrot false (Some b) n m = Some (BITSET_ALLOC_ERR, m) /\
  bitset_rrot false (Some b) n m = Some (BITSET_ALLOC_ERR, m).
Proof.
  intros Hs Hb Hl Hr. unfold bitset_lrot, bitset_rrot.
  split.
  all: erewrite bind_eq by (by eapply load_bits_eq); rewrite Hb.
  all: erewrite bind_eq by (by eapply load_len_eq).
  all: unfold size_rem; rewrite !decide_False by done.
  all: unfold bind at 1; unfold ret at 1; rewrite decide_False by done.
  all: unfold bind at 1; unfold ret at 1.
  all: reflexivity.
Qed.

(** ** The length field *)

Lemma keeps_len_structs {A} (c : M A) m b :
  (exists a m', c m = Some (a, m') /\ structs m' = structs m) -> keeps_len c m b.
Proof. intros (a & m' & Hrun & Hs). exists a, m'. by rewrite Hs. Qed.

(** C9. On an initialized bitset, [bitset_and], [bitset_or], [bitset_xor]
    (the bitset being either operand), [bitset_not], [bitset_lsh],
    [bitset_rsh], [bitset_lrot], [bitset_rrot] and [bitset_reset] return and
    leave the [len] field of the bitset as it was, whatever status they
    return and whether or not their allocation succeeds. *)
Theorem mutators_keep_len m b p cells r n ok :
  initialized m b p cells -> operand m r -> is_size n ->
  keeps_len (bitset_and (Some b) r) m b /\ keeps_len (bitset_and r (Some b)) m b /\
  keeps_len (bitset_or (Some b) r) m b /\ keeps_len (bitset_or r (Some b)) m b /\
  keeps_len (bitset_xor (Some b) r) m b /\ keeps_len (bitset_xor r (Some b)) m b /\
  keeps_len (bitset_not (Some b)) m b /\
  keeps_len (bitset_lsh (Some b) n) m b /\
  keeps_len (bitset_rsh (Some b) n) m b /\
  keeps_len (bitset_lrot ok (Some b) n) m b /\
  keeps_len (bitset_rrot ok (Some b) n) m b /\
  keeps_len (bitset_reset (Some b)) m b.
Proof.
  intros Hinit Hr Hn.
  pose proof (usable_initialized m b p cells Hinit) as Hb.
  unfold bitset_and, bitset_or, bitset_xor.
  destruct (bitset_binop_operand andb m b r Hb Hr) as [? ?].
  destruct (bitset_binop_operand orb m b r Hb Hr) as [? ?].
  destruct (bitset_binop_operand xorb m b r Hb Hr) as [? ?].
  repeat (split; [by apply keeps_len_structs|]).
  split; [by apply keeps_len_structs, bitset_not_total|].
  split; [|split; [|split; [|split]]]; apply keeps_len_structs.
  - rewrite (bitset_lsh_run m b p cells n) by (done || apply Hinit).
    eexists _, _. split; [done|]. by repeat case_decide.
  - rewrite (bitset_rsh_run m b p cells n) by (done || apply Hinit).
    eexists _, _. split; [done|]. by repeat case_decide.
  - rewrite (bitset_lrot_run ok m b p cells n) by done. cbv zeta.
    case_decide; [by eexists _, _|]. destruct ok; by eexists _, _.
  - rewrite (bitset_rrot_run ok m b p cells n) by done. cbv zeta.
    case_decide; [by eexists _, _|]. destruct ok; by eexists _, _.
  - by apply bitset_reset_total.
Qed.

(** ** The order of the checks in the rotations *)

(** The test of [b] and of [b->bits] comes before [n % b->len]: on a null
    handle or a null buffer the rotations return [BITSET_NULL_ERR], whatever
    [b->len] is, zero included. *)
Lemma bitset_rot_null_first ok m n :
  (bitset_lrot ok None n m = Some (BITSET_NULL_ERR, m) /\
   bitset_rrot ok None n m = Some (BITSET_NULL_ERR, m)) /\
  (forall b s, structs m !! b = Some s -> bits s = None ->
     bitset_lrot ok (Some b) n m = Some (BITSET_NULL_ERR, m) /\
     bitset_rrot ok (Some b) n m = Some (BITSET_NULL_ERR, m)).
Proof.
  split; [done|]. intros b s Hb Hnull. unfold bitset_lrot, bitset_rrot.
  split; erewrite bind_eq by (by eapply load_bits_eq); by rewrite Hnull.
Qed.

(** With a non-null buffer and a zero [len], [n % b->len] is evaluated and
    is undefined. *)
Lemma bitset_rot_zero_len ok m b s n :
  structs m !! b = Some s -> is_Some (bits s) -> len s = 0 ->
  bitset_lrot ok (Some b) n m = None /\ bitset_rrot ok (Some b) n m = None.
Proof.
  intros Hb [p Hp] Hl. unfold bitset_lrot, bitset_rrot.
  split.
  all: erewrite bind_eq by (by eapply load_bits_eq); rewrite Hp.
  all: erewrite bind_eq by (by eapply load_len_eq).
  all: apply bind_undef; unfold size_rem; by rewrite decide_True by done.
Qed.

(** ** The shape of the memory *)

Lemma same_shape_refl m : same_shape m m.
Proof. by split. Qed.

Lemma same_shape_trans m1 m2 m3 :
  same_shape m1 m2 -> same_shape m2 m3 -> same_shape m1 m3.
Proof.
  intros [Hs1 Hh1] [Hs2 Hh2]. split; [congruence|].
  intros q. by rewrite Hh2, Hh1.
Qed.

Lemma same_shape_with_cells m p cells cells' :
  heap m !! p = Some cells -> length cells' = length cells ->
  same_shape m (with_cells m p cells').
Proof.
  intros Hp Hlen. split; [done|]. intros q. unfold with_cells. cbn [heap].
  destruct (decide (q = p)) as [->|Hne].
  - rewrite lookup_insert_eq, Hp. cbn. by rewrite Hlen.
  - by rewrite lookup_insert_ne by done.
Qed.

Lemma keeps_shape_ret {A} (a : A) : keeps_shape (ret a).
Proof. intros m a' m' [= <- <-]. apply same_shape_refl. Qed.

Lemma keeps_shape_undef {A} : keeps_shape (@undef A).
Proof. intros m a m' [=]. Qed.

Lemma keeps_shape_bind {A B} (c : M A) (f : A -> M B) :
  keeps_shape c -> (forall a, keeps_shape (f a)) -> keeps_shape (bind c f).
Proof.
  intros Hc Hf m b m' Hrun. unfold bind in Hrun.
  destruct (c m) as [[a m1]|] eqn:Hcm; [|done].
  eapply same_shape_trans; [by eapply Hc | by eapply Hf].
Qed.

Lemma keeps_shape_load_bits b : keeps_shape (load_bits b).
Proof.
  intros m a m' Hrun. unfold load_bits in Hrun.
  destruct (structs m !! b); [|done]. injection Hrun as <- <-. apply same_shape_refl.
Qed.

Lemma keeps_shape_load_len b : keeps_shape (load_len b).
Proof.
  intros m a m' Hrun. unfold load_len in Hrun.
  destruct (structs m !! b); [|done]. injection Hrun as <- <-. apply same_shape_refl.
Qed.

Lemma keeps_shape_read_cells p off cnt : keeps_shape (read_cells p off cnt).
Proof.
  intros m a m' Hrun. unfold read_cells in Hrun.
  destruct (heap m !! p); [|done]. destruct (sub_cells _ _ _); [|done].
  injection Hrun as <- <-. apply same_shape_refl.
Qed.

Lemma keeps_shape_write_cells p off vs : keeps_shape (write_cells p off vs).
Proof.
  intros m a m' Hrun. unfold write_cells in Hrun.
  destruct (heap m !! p) as [cells|] eqn:Hp; [|done].
  unfold upd_cells in Hrun. case_decide as Hin; [|done].
  injection Hrun as <- <-.
  apply (same_shape_with_cells m p cells); [done|]. len_solve.
Qed.

Lemma keeps_shape_read_cell p i : keeps_shape (read_cell p i).
Proof.
  apply keeps_shape_bind; [apply keeps_shape_read_cells|].
  intros [|v [|? ?]]; (apply keeps_shape_ret || apply keeps_shape_undef).
Qed.

Lemma keeps_shape_write_cell p i v : keeps_shape (write_cell p i v).
Proof. apply keeps_shape_write_cells. Qed.

Lemma keeps_shape_memset0 p off cnt : keeps_shape (memset0 p off cnt).
Proof.
  unfold memset0. case_decide; [apply keeps_shape_write_cells | apply keeps_shape_undef].
Qed.

Lemma keeps_shape_memmove dst doff src soff cnt :
  keeps_shape (memmove dst doff src soff cnt).
Proof.
  apply keeps_shape_bind; [apply keeps_shape_read_cells|].
  intros vs. apply keeps_shape_write_cells.
Qed.

Lemma keeps_shape_for_loop body :
  (forall i, keeps_shape (body i)) -> forall k i, keeps_shape (for_loop k i body).
Proof.
  intros Hbody. induction k as [|k IH]; intros i; cbn [for_loop].
  - apply keeps_shape_ret.
  - apply keeps_shape_bind; [apply Hbody | intros _; apply IH].
Qed.

Ltac shape :=
  repeat first
    [ apply keeps_shape_ret | apply keeps_shape_undef
    | apply keeps_shape_load_bits | apply keeps_shape_load_len
    | apply keeps_shape_read_cell | apply keeps_shape_write_cell
    | apply keeps_shape_read_cells | apply keeps_shape_write_cells
    | apply keeps_shape_memset0 | apply keeps_shape_memmove
    | apply keeps_shape_for_loop; intros ?
    | apply keeps_shape_bind; [|intros ?]
    | case_decide | case_match ].

Lemma keeps_shape_bstr_fill p n str : forall i, keeps_shape (bstr_fill p n i str).
Proof.
  induction str as [|c str IH]; intros i; cbn [bstr_fill]; shape; apply IH.
Qed.

Lemma keeps_shape_str_fill p n str : forall i, keeps_shape (str_fill p n i str).
Proof.
  induction str as [|c str IH]; intros i; cbn [str_fill]; shape; apply IH.
Qed.

Lemma keeps_shape_true_len_loop p k : forall i acc, keeps_shape (true_len_loop k p i acc).
Proof.
  induction k as [|k IH]; intros i acc; cbn [true_len_loop]; shape; apply IH.
Qed.

Lemma keeps_shape_scan_loop stop p k : forall i, keeps_shape (scan_loop stop k p i).
Proof.
  induction k as [|k IH]; intros i; cbn [scan_loop]; shape; apply IH.
Qed.

Lemma keeps_shape_true_len b : keeps_shape (bitset_true_len b).
Proof. unfold bitset_true_len. shape; apply keeps_shape_true_len_loop. Qed.

Lemma keeps_shape_all b : keeps_shape (bitset_all b).
Proof. unfold bitset_all. shape; apply keeps_shape_scan_loop. Qed.

Lemma keeps_shape_any b : keeps_shape (bitset_any b).
Proof. unfold bitset_any. shape; apply keeps_shape_scan_loop. Qed.

Lemma keeps_shape_binop op lhs rhs : keeps_shape (bitset_binop op lhs rhs).
Proof. unfold bitset_binop, for_cells. shape. Qed.

Lemma keeps_shape_not b : keeps_shape (bitset_not b).
Proof. unfold bitset_not, for_cells. shape. Qed.

Lemma keeps_shape_lsh b n : keeps_shape (bitset_lsh b n).
Proof. unfold bitset_lsh. shape. Qed.

Lemma keeps_shape_rsh b n : keeps_shape (bitset_rsh b n).
Proof. unfold bitset_rsh. shape. Qed.

Lemma keeps_shape_reset b : keeps_shape (bitset_reset b).
Proof. unfold bitset_reset, for_cells. shape. Qed.

(** ** The invariant of the data model *)

Lemma sound_same_shape m m' : sound m -> same_shape m m' -> sound m'.
Proof.
  intros [Hall Hun] [Hs Hh]. split.
  - intros b s p Hb Hp. rewrite Hs in Hb.
    destruct (Hall b s p Hb Hp) as (cells & [(Hbs & Hc & Hsz) Hpos] & Hlen).
    specialize (Hh p). rewrite Hc in Hh.
    destruct (heap m' !! p) as [cells'|] eqn:Hc'; [|done].
    injection Hh as Hh. exists cells'. unfold initialized, ready.
    rewrite Hs, Hh. done.
  - intros b1 b2 s1 s2 p. rewrite Hs. apply Hun.
Qed.

Lemma sound_pristine m : pristine m -> sound m.
Proof.
  intros [_ Hnull]. split.
  - intros b s p Hb Hp. rewrite (Hnull b s Hb) in Hp. done.
  - intros b1 b2 s1 s2 p Hb1 _ Hp1 _. rewrite (Hnull b1 s1 Hb1) in Hp1. done.
Qed.

(** A struct made to point to a new block of [l > 0] cells. *)
Lemma sound_alloc m b q cells l :
  sound m -> heap m !! q = None ->
  Z.of_nat (length cells) = l -> 0 < l -> is_size l ->
  sound (Mem (<[b := Bitset (Some q) l]> (structs m)) (<[q := cells]> (heap m))).
Proof.
  intros [Hall Hun] Hq Hlen Hpos Hsz.
  assert (forall b' s' p', structs m !! b' = Some s' -> bits s' = Some p' -> p' <> q) as Hlive.
  { intros b' s' p' Hb' Hp' ->.
    destruct (Hall b' s' q Hb' Hp') as (c & [(_ & Hc & _) _] & _). congruence. }
  split.
  - intros b' s' p' Hb' Hp'. cbn [structs] in Hb'.
    apply lookup_insert_Some in Hb' as [[<- <-]|[Hne Hb']].
    + injection Hp' as <-. exists cells. subst l.
      unfold initialized, ready. cbn [structs heap len].
      by rewrite !lookup_insert_eq.
    + destruct (Hall b' s' p' Hb' Hp') as (c & [(Hbs & Hc & Hcs) Hcp] & Hcl).
      assert (q <> p') as Hqp by (intros ->; by eapply Hlive).
      exists c. unfold initialized, ready. cbn [structs heap].
      by rewrite !lookup_insert_ne by done.
  - intros b1 b2 s1 s2 p Hb1 Hb2 Hp1 Hp2. cbn [structs] in Hb1, Hb2.
    apply lookup_insert_Some in Hb1 as [[<- <-]|[Hne1 Hb1]];
      apply lookup_insert_Some in Hb2 as [[<- <-]|[Hne2 Hb2]]; try done.
    + injection Hp1 as <-. by destruct (Hlive b2 s2 q Hb2 Hp2).
    + injection Hp2 as <-. by destruct (Hlive b1 s1 q Hb1 Hp1).
    + by eapply Hun.
Qed.

(** A struct whose buffer becomes null. *)
Lemma sound_unset m b l : sound m -> sound (Mem (<[b := Bitset None l]> (structs m)) (heap m)).
Proof.
  intros [Hall Hun]. split.
  - intros b' s' p' Hb' Hp'. cbn [structs] in Hb'.
    apply lookup_insert_Some in Hb' as [[<- <-]|[Hne Hb']]; [done|].
    destruct (Hall b' s' p' Hb' Hp') as (c & [(Hbs & Hc & Hcs) Hcp] & Hcl).
    exists c. unfold initialized, ready. cbn [structs heap].
    by rewrite lookup_insert_ne by done.
  - intros b1 b2 s1 s2 p Hb1 Hb2 Hp1 Hp2. cbn [structs] in Hb1, Hb2.
    apply lookup_insert_Some in Hb1 as [[<- <-]|[Hne1 Hb1]];
      apply lookup_insert_Some in Hb2 as [[<- <-]|[Hne2 Hb2]]; try done.
    by eapply Hun.
Qed.

(** A struct whose block is freed and whose buffer becomes null. *)
Lemma sound_release m b s p :
  sound m -> structs m !! b = Some s -> bits s = Some p ->
  sound (Mem (<[b := Bitset None (len s)]> (structs m)) (delete p (heap m))).
Proof.
  intros [Hall Hun] Hb Hp. split.
  - intros b' s' p' Hb' Hp'. cbn [structs] in Hb'.
    apply lookup_insert_Some in Hb' as [[<- <-]|[Hne Hb']]; [done|].
    destruct (Hall b' s' p' Hb' Hp') as (c & [(Hbs & Hc & Hcs) Hcp] & Hcl).
    assert (p <> p') as Hpp by (intros ->; apply Hne; by eapply Hun).
    exists c. unfold initialized, ready. cbn [structs heap].
    by rewrite lookup_insert_ne, lookup_delete_ne by done.
  - intros b1 b2 s1 s2 q Hb1 Hb2 Hp1 Hp2. cbn [structs] in Hb1, Hb2.
    apply lookup_insert_Some in Hb1 as [[<- <-]|[Hne1 Hb1]];
      apply lookup_insert_Some in Hb2 as [[<- <-]|[Hne2 Hb2]]; try done.
    by eapply Hun.
Qed.

(** The common beginning of the constructors: [b->len = l;]
    [b->bits = calloc(l, ...);] and the test of [b->bits]. *)
Lemma alloc_prologue {A} ok m b s0 l (k : option block -> M A) :
  structs m !! b = Some s0 ->
  bind (store_len b l)
    (fun _ => bind (calloc ok l)
       (fun p => bind (store_bits b p) (fun _ => bind (load_bits b) k))) m =
  k (if ok then Some (fresh_block m) else None)
    (Mem (<[b := Bitset (if ok then Some (fresh_block m) else None) l]> (structs m))
         (if ok then <[fresh_block m := replicate (Z.to_nat l) false]> (heap m)
          else heap m)).
Proof.
  intros Hb.
  erewrite bind_eq by (by eapply store_len_eq).
  unfold calloc. unfold bind at 1.
  change (fresh_block (with_struct m b _)) with (fresh_block m).
  destruct ok.
  all: unfold with_struct at 1; cbn [structs heap].
  all: erewrite bind_eq by (eapply store_bits_eq; cbn [structs]; apply lookup_insert_eq).
  all: unfold with_struct; cbn [structs heap len]; rewrite insert_insert_eq.
  all: erewrite bind_eq by (eapply load_bits_eq; cbn [structs]; apply lookup_insert_eq).
  all: done.
Qed.

Lemma bind_ret_inv {A} (c : M A) m m' :
  bind c (fun _ => ret tt) m = Some (tt, m') -> exists a, c m = Some (a, m').
Proof.
  unfold bind, ret. destruct (c m) as [[a m1]|]; [|done].
  intros [= <-]. by exists a.
Qed.

Lemma bind_inv {A B} (c : M A) (f : A -> M B) m b m' :
  bind c f m = Some (b, m') ->
  exists a m1, c m = Some (a, m1) /\ f a m1 = Some (b, m').
Proof.
  unfold bind. destruct (c m) as [[a m1]|]; [|done]. intros Hf. by exists a, m1.
Qed.

Lemma store_len_undef m b n : structs m !! b = None -> store_len b n m = None.
Proof. unfold store_len. by intros ->. Qed.

Lemma load_bits_undef m b : structs m !! b = None -> load_bits b m = None.
Proof. unfold load_bits. by intros ->. Qed.

(** *** The constructors keep the invariant *)

Lemma sound_init ok b n m st m' :
  sound m -> is_size n -> bitset_init ok b n m = Some (st, m') -> sound m'.
Proof.
  intros Hs Hn Hrun. unfold bitset_init in Hrun.
  destruct b as [b|]; [|by injection Hrun as _ <-].
  case_decide as Hn0; [by injection Hrun as _ <-|].
  destruct (structs m !! b) as [s0|] eqn:Hb.
  - rewrite (alloc_prologue ok m b s0 n) in Hrun by done.
    destruct ok; injection Hrun as _ <-.
    + apply sound_alloc; [done | apply fresh_block_free | | | done].
      * rewrite length_replicate. unfold is_size in Hn. lia.
      * unfold is_size in Hn. lia.
    + by apply sound_unset.
  - by rewrite (bind_undef _ _ _ (store_len_undef m b n Hb)) in Hrun.
Qed.

Lemma sound_init_bstr ok b str n m st m' :
  sound m -> is_size n -> bitset_init_bstr ok b str n m = Some (st, m') -> sound m'.
Proof.
  intros Hs Hn Hrun. unfold bitset_init_bstr in Hrun.
  destruct b as [b|]; [|by injection Hrun as _ <-].
  destruct str as [str|]; [|by injection Hrun as _ <-].
  case_decide as Hn0; [by injection Hrun as _ <-|].
  destruct (structs m !! b) as [s0|] eqn:Hb.
  - rewrite (alloc_prologue ok m b s0 n) in Hrun by done.
    destruct ok.
    + apply bind_inv in Hrun as (u & m1 & Hfill & Hret). injection Hret as _ <-.
      eapply sound_same_shape; [|by eapply keeps_shape_bstr_fill].
      apply sound_alloc; [done | apply fresh_block_free | | | done].
      * rewrite length_replicate. unfold is_size in Hn. lia.
      * unfold is_size in Hn. lia.
    + injection Hrun as _ <-. by apply sound_unset.
  - by rewrite (bind_undef _ _ _ (store_len_undef m b n Hb)) in Hrun.
Qed.

Lemma sound_init_str ok b str n m st m' :
  sound m -> is_size n -> n * CHAR_LEN <= SIZE_MAX ->
  bitset_init_str ok b str n m = Some (st, m') -> sound m'.
Proof.
  intros Hs Hn Hmax Hrun. unfold bitset_init_str in Hrun.
  destruct b as [b|]; [|by injection Hrun as _ <-].
  destruct str as [str|]; [|by injection Hrun as _ <-].
  case_decide as Hn0; [by injection Hrun as _ <-|].
  assert (0 < n) as Hpos by (unfold is_size in Hn; lia).
  rewrite size_mul_exact in Hrun by (done || lia).
  destruct (structs m !! b) as [s0|] eqn:Hb.
  - assert (forall A (k : Z -> M A),
              bind (store_len b (n * 8)) (fun _ => bind (load_len b) k) m =
              bind (store_len b (n * 8)) (fun _ => k (n * 8)) m) as Hlen.
    { intros A k. erewrite !bind_eq by (by eapply store_len_eq).
      erewrite (bind_eq (load_len b)); cycle 1.
      { eapply (load_len_eq _ _ (Bitset _ _)). unfold with_struct. cbn [structs].
        apply lookup_insert_eq. }
      symmetry. by erewrite bind_eq by (by eapply store_len_eq). }
    rewrite Hlen in Hrun.
    rewrite (alloc_prologue ok m b s0 (n * 8)) in Hrun by done.
    destruct ok.
    + apply bind_inv in Hrun as (u & m1 & Hfill & Hret). injection Hret as _ <-.
      eapply sound_same_shape; [|by eapply keeps_shape_str_fill].
      apply sound_alloc; [done | apply fresh_block_free | | lia | ].
      * rewrite length_replicate. lia.
      * unfold is_size, CHAR_LEN in *. lia.
    + injection Hrun as _ <-. by apply sound_unset.
  - by rewrite (bind_undef _ _ _ (store_len_undef m b _ Hb)) in Hrun.
Qed.

(** *** The rotations and the release keep the invariant *)

Lemma sound_rot ok b n m st m' :
  sound m -> is_size n ->
  bitset_lrot ok b n m = Some (st, m') \/ bitset_rrot ok b n m = Some (st, m') ->
  sound m'.
Proof.
  intros Hs Hn Hrun.
  destruct b as [b|]; [|by destruct Hrun as [Hrun|Hrun]; injection Hrun as _ <-].
  destruct (structs m !! b) as [s|] eqn:Hb.
  - destruct (bits s) as [p|] eqn:Hp.
    + destruct (proj1 Hs b s p Hb Hp) as (cells & Hinit & Hlen).
      pose proof Hinit as [(_ & Hc & _) _].
      rewrite (bitset_lrot_run ok m b p cells n), (bitset_rrot_run ok m b p cells n)
        in Hrun by done.
      cbv zeta in Hrun. case_decide.
      * by destruct Hrun as [Hrun|Hrun]; injection Hrun as _ <-.
      * destruct ok; [|by destruct Hrun as [Hrun|Hrun]; injection Hrun as _ <-].
        assert (0 <= n mod Z.of_nat (length cells) < Z.of_nat (length cells))
          by (apply Z.mod_pos_bound; apply Hinit).
        destruct Hrun as [Hrun|Hrun]; injection Hrun as _ <-.
        all: eapply sound_same_shape; [done|].
        all: apply (same_shape_with_cells m p cells); [done|len_solve].
    + destruct (bitset_rot_null_first ok m n) as [_ Hnull].
      destruct (Hnull b s Hb Hp) as [Hl Hr]. rewrite Hl, Hr in Hrun.
      by destruct Hrun as [Hrun|Hrun]; injection Hrun as _ <-.
  - unfold bitset_lrot, bitset_rrot in Hrun.
    rewrite !(bind_undef _ _ _ (load_bits_undef m b Hb)) in Hrun.
    by destruct Hrun.
Qed.

Lemma sound_free b m u m' : sound m -> bitset_free b m = Some (u, m') -> sound m'.
Proof.
  intros Hs Hrun. unfold bitset_free in Hrun.
  destruct b as [b|]; [|by injection Hrun as _ <-].
  destruct (structs m !! b) as [s|] eqn:Hb.
  - erewrite bind_eq in Hrun by (by eapply load_bits_eq).
    destruct (bits s) as [p|] eqn:Hp.
    + destruct (proj1 Hs b s p Hb Hp) as (cells & [(_ & Hc & _) _] & _).
      unfold free in Hrun. unfold bind at 1 in Hrun. rewrite Hc in Hrun.
      unfold store_bits in Hrun. cbn [structs heap] in Hrun. rewrite Hb in Hrun.
      injection Hrun as _ <-. by apply sound_release.
    + unfold free in Hrun. unfold bind at 1 in Hrun.
      unfold store_bits in Hrun. rewrite Hb in Hrun.
      injection Hrun as _ <-. by apply sound_unset.
  - by rewrite (bind_undef _ _ _ (load_bits_undef m b Hb)) in Hrun.
Qed.

(** Where no call wraps the product [n * CHAR_LEN], every struct with a
    non-null buffer is an initialized bitset: its buffer is live, of [len]
    cells, and [len > 0]. *)
Theorem reachable_nowrap_sound m : reachable_nowrap m -> sound m.
Proof.
  induction 1 as [m Hp | m c m' Hreach IH [Hsz Hnw] Hexec]; [by apply sound_pristine|].
  destruct c; cbn [exec call_sizes call_nowrap] in *.
  all: try (apply bind_ret_inv in Hexec as [a Hrun]).
  - by eapply sound_init.
  - by eapply sound_init_bstr.
  - by eapply sound_init_str.
  - eapply sound_same_shape; [done|]. by eapply keeps_shape_true_len.
  - eapply sound_same_shape; [done|]. by eapply keeps_shape_all.
  - eapply sound_same_shape; [done|]. by eapply keeps_shape_any.
  - eapply sound_same_shape; [done|]. by eapply keeps_shape_binop.
  - eapply sound_same_shape; [done|]. by eapply keeps_shape_binop.
  - eapply sound_same_shape; [done|]. by eapply keeps_shape_binop.
  - eapply sound_same_shape; [done|]. by eapply keeps_shape_not.
  - eapply sound_same_shape; [done|]. by eapply keeps_shape_lsh.
  - eapply sound_same_shape; [done|]. by eapply keeps_shape_rsh.
  - eapply sound_rot; [done | done | by left].
  - eapply sound_rot; [done | done | by right].
  - eapply sound_same_shape; [done|]. by eapply keeps_shape_reset.
  - by eapply sound_free.
Qed.

(** There the rotations are defined on every valid pointer: [n % b->len] is
    never evaluated with [b->len = 0]. *)
Corollary reachable_nowrap_rot_defined m ok b n :
  reachable_nowrap m -> valid_ptr m b -> is_size n ->
  is_Some (bitset_lrot ok b n m) /\ is_Some (bitset_rrot ok b n m).
Proof.
  intros Hreach Hb Hn. apply reachable_nowrap_sound in Hreach as [Hall _].
  destruct b as [b|]; [|by split; eexists].
  destruct Hb as [s Hb]. destruct (bits s) as [p|] eqn:Hp.
  - destruct (Hall b s p Hb Hp) as (cells & Hinit & _).
    rewrite (bitset_lrot_run ok m b p cells n), (bitset_rrot_run ok m b p cells n) by done.
    by split; eexists.
  - destruct (bitset_rot_null_first ok m n) as [_ Hnull].
    destruct (Hnull b s Hb Hp) as [-> ->]. by split; eexists.
Qed.

(** ** Single cells *)

Lemma read_cell_eq m p cells (i : nat) x :
  heap m !! p = Some cells -> cells !! i = Some x ->
  read_cell p (Z.of_nat i) m = Some (x, m).
Proof.
  intros Hp Hx. pose proof (lookup_lt_Some _ _ _ Hx) as Hi. unfold read_cell.
  erewrite bind_eq by (eapply read_cells_eq; [done | lia ..]).
  rewrite Nat2Z.id. change (Z.to_nat 1) with 1%nat.
  by rewrite (drop_S _ x) by done.
Qed.

Lemma write_cell_eq m p cells (i : nat) v :
  heap m !! p = Some cells -> (i < length cells)%nat ->
  write_cell p (Z.of_nat i) v m = Some (tt, with_cells m p (<[i := v]> cells)).
Proof.
  intros Hp Hi. unfold write_cell.
  erewrite write_cells_eq; [ | done | lia | cbn [length]; lia ].
  rewrite Nat2Z.id. cbn [length app]. do 3 f_equal.
  rewrite insert_take_drop by done. by rewrite Nat.add_1_r.
Qed.

(** A loop whose body replaces cell [i] of block [p] by [F i] of its value
    replaces the cells by their images, in [imap F]. *)
Lemma for_loop_imap m p cells (F : nat -> bool -> bool) body :
  (forall i c1 x, length c1 = length cells -> c1 !! i = Some x ->
     body (Z.of_nat i) (with_cells m p c1) =
       Some (tt, with_cells m p (<[i := F i x]> c1))) ->
  forall k i, (i + k <= length cells)%nat ->
    for_loop k (Z.of_nat i) body
      (with_cells m p (take i (imap F cells) ++ drop i cells)) =
    Some (tt, with_cells m p (take (i + k) (imap F cells) ++ drop (i + k) cells)).
Proof.
  intros Hbody. induction k as [|k IH]; intros i Hik; cbn [for_loop].
  - by rewrite Nat.add_0_r.
  - destruct (lookup_lt_is_Some_2 cells i) as [x Hx]; [lia|].
    assert (length (take i (imap F cells)) = i) as Hlen
      by (rewrite length_take, length_imap; lia).
    erewrite bind_eq; cycle 1.
    { apply (Hbody i _ x).
      - rewrite length_app, length_take, length_imap, length_drop. lia.
      - rewrite lookup_app_r by lia. rewrite Hlen, Nat.sub_diag.
        by rewrite lookup_drop, Nat.add_0_r. }
    replace (Z.of_nat i + 1) with (Z.of_nat (S i)) by lia.
    replace (<[i := F i x]> (take i (imap F cells) ++ drop i cells))
      with (take (S i) (imap F cells) ++ drop (S i) cells).
    + rewrite IH by lia. by replace (S i + k)%nat with (i + S k)%nat by lia.
    + rewrite insert_app_r_alt by lia. rewrite Hlen, Nat.sub_diag.
      rewrite (drop_S cells x i) by done. cbn [insert list_insert].
      rewrite (take_S_r _ _ (F i x)) by (by rewrite list_lookup_imap, Hx).
      by rewrite <- (assoc_L (++)).
Qed.

Lemma for_cells_imap m p cells (F : nat -> bool -> bool) body :
  heap m !! p = Some cells ->
  (forall i c1 x, length c1 = length cells -> c1 !! i = Some x ->
     body (Z.of_nat i) (with_cells m p c1) =
       Some (tt, with_cells m p (<[i := F i x]> c1))) ->
  for_cells (Z.of_nat (length cells)) body m = Some (tt, with_cells m p (imap F cells)).
Proof.
  intros Hp Hbody. unfold for_cells. rewrite Nat2Z.id.
  pose proof (for_loop_imap m p cells F body Hbody (length cells) 0) as Hloop.
  rewrite take_0, drop_0 in Hloop. cbn [app] in Hloop.
  rewrite with_cells_id in Hloop by done.
  change (Z.of_nat 0) with 0 in Hloop. rewrite Hloop by lia.
  cbn [Nat.add]. rewrite take_ge by (rewrite length_imap; lia).
  by rewrite drop_all, app_nil_r.
Qed.

(** ** What the cellwise operations compute *)

Lemma imap_zip_with (op : bool -> bool -> bool) (cl cr : list bool) :
  length cl = length cr ->
  imap (fun i x => op x (default false (cr !! i))) cl = zip_with op cl cr.
Proof.
  intros Hlen. apply list_eq. intros i.
  rewrite list_lookup_imap, lookup_zip_with.
  destruct (cl !! i) as [x|] eqn:Hx; [|done]. cbn.
  destruct (lookup_lt_is_Some_2 cr i) as [y Hy];
    [rewrite <- Hlen; by eapply lookup_lt_Some|].
  by rewrite Hy.
Qed.

Lemma imap_false (cells : list bool) :
  imap (fun _ _ => false) cells = replicate (length cells) false.
Proof.
  apply list_eq. intros i. rewrite list_lookup_imap.
  destruct (cells !! i) as [x|] eqn:Hx; cbn.
  - by rewrite lookup_replicate_2 by (by eapply lookup_lt_Some).
  - symmetry. apply lookup_replicate_None. by apply lookup_ge_None.
Qed.

Lemma bitset_not_run m b p cells :
  ready m b p cells ->
  bitset_not (Some b) m = Some (BITSET_GOOD, with_cells m p (negb <$> cells)).
Proof.
  intros (Hb & Hp & _). unfold bitset_not.
  erewrite bind_eq by (by eapply load_bits_eq). cbn [bits].
  erewrite bind_eq by (by eapply load_len_eq). cbn [len].
  erewrite bind_eq; cycle 1.
  { apply (for_cells_imap m p cells (fun _ => negb)); [done|].
    intros i c1 x Hlen Hx.
    erewrite bind_eq
      by (eapply read_cell_eq; [cbn [with_cells heap]; apply lookup_insert_eq | done]).
    erewrite write_cell_eq;
      [ | cbn [with_cells heap]; apply lookup_insert_eq | by eapply lookup_lt_Some ].
    by rewrite with_cells_twice. }
  unfold ret. do 3 f_equal. apply (imap_const negb).
Qed.

Lemma bitset_reset_run m b p cells :
  ready m b p cells ->
  bitset_reset (Some b) m = Some (tt, with_cells m p (replicate (length cells) false)).
Proof.
  intros (Hb & Hp & _). unfold bitset_reset.
  erewrite bind_eq by (by eapply load_bits_eq). cbn [bits].
  erewrite bind_eq by (by eapply load_len_eq). cbn [len].
  rewrite <- imap_false.
  apply (for_cells_imap m p cells (fun _ _ => false)); [done|].
  intros i c1 x Hlen Hx.
  erewrite write_cell_eq;
    [ | cbn [with_cells heap]; apply lookup_insert_eq | by eapply lookup_lt_Some ].
  by rewrite with_cells_twice.
Qed.

(** The operands have different buffers. *)
Lemma bitset_binop_run op m l r lp rp cl cr :
  ready m l lp cl -> ready m r rp cr -> lp <> rp -> length cl = length cr ->
  bitset_binop op (Some l) (Some r) m =
    Some (BITSET_GOOD, with_cells m lp (zip_with op cl cr)).
Proof.
  intros (Hl & Hlp & _) (Hr & Hrp & _) Hne Hlen. unfold bitset_binop.
  erewrite bind_eq by (by eapply load_bits_eq). cbn [bits].
  erewrite bind_eq by (by eapply load_bits_eq). cbn [bits].
  erewrite bind_eq by (by eapply load_len_eq). cbn [len].
  erewrite bind_eq by (by eapply load_len_eq). cbn [len].
  rewrite decide_False by (rewrite Hlen; tauto).
  erewrite bind_eq; cycle 1.
  { apply (for_cells_imap m lp cl (fun i x => op x (default false (cr !! i)))); [done|].
    intros i c1 x Hc1 Hx.
    destruct (lookup_lt_is_Some_2 cr i) as [y Hy];
      [rewrite <- Hlen, <- Hc1; by eapply lookup_lt_Some|].
    erewrite bind_eq
      by (eapply read_cell_eq; [cbn [with_cells heap]; apply lookup_insert_eq | done]).
    erewrite bind_eq; cycle 1.
    { eapply read_cell_eq; [|exact Hy]. cbn [with_cells heap].
      by rewrite lookup_insert_ne by done. }
    erewrite write_cell_eq;
      [ | cbn [with_cells heap]; apply lookup_insert_eq | by eapply lookup_lt_Some ].
    by rewrite with_cells_twice, Hy. }
  unfold ret. do 3 f_equal. by apply imap_zip_with.
Qed.

(** The operands have the same buffer, as when they are the same bitset. *)
Lemma bitset_binop_self_run op m l r p cells :
  ready m l p cells -> ready m r p cells ->
  bitset_binop op (Some l) (Some r) m =
    Some (BITSET_GOOD, with_cells m p ((fun x => op x x) <$> cells)).
Proof.
  intros (Hl & Hp & _) (Hr & _ & _). unfold bitset_binop.
  erewrite bind_eq by (by eapply load_bits_eq). cbn [bits].
  erewrite bind_eq by (by eapply load_bits_eq). cbn [bits].
  erewrite bind_eq by (by eapply load_len_eq). cbn [len].
  erewrite bind_eq by (by eapply load_len_eq). cbn [len].
  rewrite decide_False by tauto.
  erewrite bind_eq; cycle 1.
  { apply (for_cells_imap m p cells (fun _ x => op x x)); [done|].
    intros i c1 x Hc1 Hx.
    erewrite bind_eq
      by (eapply read_cell_eq; [cbn [with_cells heap]; apply lookup_insert_eq | done]).
    erewrite bind_eq
      by (eapply read_cell_eq; [cbn [with_cells heap]; apply lookup_insert_eq | done]).
    erewrite write_cell_eq;
      [ | cbn [with_cells heap]; apply lookup_insert_eq | by eapply lookup_lt_Some ].
    by rewrite with_cells_twice. }
  unfold ret. do 3 f_equal. apply (imap_const (fun x => op x x)).
Qed.

(** ** What the queries return *)

Lemma popcount_cons x cells :
  popcount (x :: cells) = (if x then 1 else 0) + popcount cells.
Proof. unfold popcount. destruct x; cbn [count_occ]; destruct (Bool.bool_dec _ _); try done; lia. Qed.

Lemma popcount_app c1 c2 : popcount (c1 ++ c2) = popcount c1 + popcount c2.
Proof. unfold popcount. rewrite count_occ_app. lia. Qed.

Lemma popcount_replicate_false n : popcount (replicate n false) = 0.
Proof. induction n as [|n IH]; [done|]. cbn [replicate]. by rewrite popcount_cons, IH. Qed.

Lemma popcount_bounds cells : 0 <= popcount cells <= Z.of_nat (length cells).
Proof.
  induction cells as [|x cells IH]; [done|].
  rewrite popcount_cons. cbn [length]. destruct x; lia.
Qed.

Lemma true_len_loop_run m p cells :
  heap m !! p = Some cells ->
  forall k i acc, (i + k <= length cells)%nat ->
    true_len_loop k p (Z.of_nat i) acc m =
      Some (acc + popcount (take k (drop i cells)), m).
Proof.
  intros Hp. induction k as [|k IH]; intros i acc Hik; cbn [true_len_loop].
  - unfold ret, popcount. cbn. by rewrite Z.add_0_r.
  - destruct (lookup_lt_is_Some_2 cells i) as [x Hx]; [lia|].
    erewrite bind_eq by (by eapply read_cell_eq).
    replace (Z.of_nat i + 1) with (Z.of_nat (S i)) by lia.
    rewrite IH by lia. rewrite (drop_S cells x i) by done.
    rewrite firstn_cons, popcount_cons. do 2 f_equal. lia.
Qed.

Lemma scan_loop_run stop m p cells :
  heap m !! p = Some cells ->
  forall k i, (i + k <= length cells)%nat ->
    scan_loop stop k p (Z.of_nat i) m =
      Some (bool_decide (stop ∈ take k (drop i cells)), m).
Proof.
  intros Hp. induction k as [|k IH]; intros i Hik; cbn [scan_loop].
  - unfold ret. rewrite take_0.
    by rewrite bool_decide_eq_false_2 by apply not_elem_of_nil.
  - destruct (lookup_lt_is_Some_2 cells i) as [x Hx]; [lia|].
    erewrite bind_eq by (by eapply read_cell_eq).
    rewrite (drop_S cells x i) by done. rewrite firstn_cons.
    destruct (decide (x = stop)) as [->|Hne].
    + rewrite bool_decide_eq_true_2 by done. unfold ret. do 2 f_equal.
      symmetry. apply bool_decide_eq_true_2. left.
    + rewrite bool_decide_eq_false_2 by done.
      replace (Z.of_nat i + 1) with (Z.of_nat (S i)) by lia.
      rewrite IH by lia. do 2 f_equal. apply bool_decide_ext.
      rewrite elem_of_cons. intuition congruence.
Qed.

Lemma bitset_true_len_run m b p cells :
  ready m b p cells -> bitset_true_len (Some b) m = Some (popcount cells, m).
Proof.
  intros (Hb & Hp & _). unfold bitset_true_len.
  erewrite bind_eq by (by eapply load_bits_eq). cbn [bits].
  erewrite bind_eq by (by eapply load_len_eq). cbn [len].
  rewrite Nat2Z.id. change 0 with (Z.of_nat 0) at 1.
  rewrite (true_len_loop_run m p cells Hp) by lia.
  by rewrite drop_0, firstn_all.
Qed.

Lemma bitset_all_run m b p cells :
  ready m b p cells -> bitset_all (Some b) m = Some (bool_decide (false ∉ cells), m).
Proof.
  intros (Hb & Hp & _). unfold bitset_all.
  erewrite bind_eq by (by eapply load_bits_eq). cbn [bits].
  erewrite bind_eq by (by eapply load_len_eq). cbn [len].
  rewrite Nat2Z.id. change 0 with (Z.of_nat 0).
  erewrite bind_eq by (apply (scan_loop_run false m p cells Hp); lia).
  rewrite drop_0, firstn_all. unfold ret. do 2 f_equal.
  by rewrite bool_decide_not.
Qed.

Lemma bitset_any_run m b p cells :
  ready m b p cells -> bitset_any (Some b) m = Some (bool_decide (true ∈ cells), m).
Proof.
  intros (Hb & Hp & _). unfold bitset_any.
  erewrite bind_eq by (by eapply load_bits_eq). cbn [bits].
  erewrite bind_eq by (by eapply load_len_eq). cbn [len].
  rewrite Nat2Z.id. change 0 with (Z.of_nat 0).
  rewrite (scan_loop_run true m p cells Hp) by lia.
  by rewrite drop_0, firstn_all.
Qed.

(** ** Further properties: construction from a length *)

Lemma bitset_init_run m b s0 n :
  structs m !! b = Some s0 -> n <> 0 ->
  bitset_init true (Some b) n m =
    Some (BITSET_GOOD,
          Mem (<[b := Bitset (Some (fresh_block m)) n]> (structs m))
              (<[fresh_block m := replicate (Z.to_nat n) false]> (heap m))).
Proof.
  intros Hb Hn. unfold bitset_init. rewrite decide_False by done.
  by rewrite (alloc_prologue true m b s0 n) by done.
Qed.

Lemma ready_fresh m b p cells :
  heap m !! p = None -> is_size (Z.of_nat (length cells)) ->
  ready (Mem (<[b := Bitset (Some p) (Z.of_nat (length cells))]> (structs m))
             (<[p := cells]> (heap m))) b p cells.
Proof.
  intros Hp Hsz. unfold ready. cbn [structs heap]. by rewrite !lookup_insert_eq.
Qed.

(** X1. [bitset_init] on a non-null handle with [n > 0], when [calloc]
    succeeds: the struct points to a new block of [n] false cells and has
    [len = n]; no other struct and no other block changes; and the queries
    then count no true cell, find none, and do not find all cells true. *)
Theorem bitset_init_zeroed m b s0 n :
  structs m !! b = Some s0 -> 0 < n -> is_size n ->
  exists m' p,
    bitset_init true (Some b) n m = Some (BITSET_GOOD, m') /\
    heap m !! p = None /\
    initialized m' b p (replicate (Z.to_nat n) false) /\
    (forall b', b' <> b -> structs m' !! b' = structs m !! b') /\
    (forall q, q <> p -> heap m' !! q = heap m !! q) /\
    bitset_true_len (Some b) m' = Some (0, m') /\
    bitset_any (Some b) m' = Some (false, m') /\
    bitset_all (Some b) m' = Some (false, m').
Proof.
  intros Hb Hpos Hn. eexists _, (fresh_block m).
  split; [apply (bitset_init_run m b s0 n Hb); lia|].
  split; [apply fresh_block_free|].
  set (cells := replicate (Z.to_nat n) false).
  assert (Z.of_nat (length cells) = n) as Hlen
    by (unfold cells; rewrite length_replicate; lia).
  assert (ready (Mem (<[b := Bitset (Some (fresh_block m)) n]> (structs m))
                     (<[fresh_block m := cells]> (heap m))) b (fresh_block m) cells) as Hr.
  { rewrite <- Hlen at 1. apply ready_fresh; [apply fresh_block_free|by rewrite Hlen]. }
  assert (false ∈ cells) as Hin.
  { unfold cells. apply elem_of_replicate. split; [done|lia]. }
  split; [split; [done|lia]|].
  split; [intros b' Hne; cbn [structs]; by rewrite lookup_insert_ne by done|].
  split; [intros q Hne; cbn [heap]; by rewrite lookup_insert_ne by done|].
  split; [|split].
  - rewrite (bitset_true_len_run _ b _ cells Hr). unfold cells.
    by rewrite popcount_replicate_false.
  - rewrite (bitset_any_run _ b _ cells Hr). rewrite bool_decide_eq_false_2; [done|].
    unfold cells. intros [Heq _]%elem_of_replicate. done.
  - rewrite (bitset_all_run _ b _ cells Hr). rewrite bool_decide_eq_false_2; [done|].
    intros Hnot. by apply Hnot.
Qed.

(** ** Further properties: bitsets without a buffer *)

(** X2. On a bitset whose buffer is null, whatever its [len] (zero
    included), the operators, the shifts and the rotations return
    [BITSET_NULL_ERR] and leave the memory as it was; so do the binary
    operators when that bitset is the right operand of an existing left one,
    and when either pointer is null. *)
Theorem uninitialized_rejected m b s l n ok :
  structs m !! b = Some s -> bits s = None -> is_Some (structs m !! l) ->
  (forall op r, bitset_binop op (Some b) r m = Some (BITSET_NULL_ERR, m)) /\
  (forall op, bitset_binop op (Some l) (Some b) m = Some (BITSET_NULL_ERR, m)) /\
  (forall op r, bitset_binop op None r m = Some (BITSET_NULL_ERR, m)) /\
  (forall op, bitset_binop op (Some l) None m = Some (BITSET_NULL_ERR, m)) /\
  bitset_not (Some b) m = Some (BITSET_NULL_ERR, m) /\
  bitset_lsh (Some b) n m = Some (BITSET_NULL_ERR, m) /\
  bitset_rsh (Some b) n m = Some (BITSET_NULL_ERR, m) /\
  bitset_lrot ok (Some b) n m = Some (BITSET_NULL_ERR, m) /\
  bitset_rrot ok (Some b) n m = Some (BITSET_NULL_ERR, m).
Proof.
  intros Hb Hnull [sl Hl].
  split; [|split; [|split; [|split]]].
  - intros op [r|]; [|done]. unfold bitset_binop.
    erewrite bind_eq by (by eapply load_bits_eq). by rewrite Hnull.
  - intros op. unfold bitset_binop.
    erewrite bind_eq by (by eapply load_bits_eq).
    destruct (bits sl); [|done].
    erewrite bind_eq by (by eapply load_bits_eq). by rewrite Hnull.
  - done.
  - done.
  - unfold bitset_not, bitset_lsh, bitset_rsh, bitset_lrot, bitset_rrot.
    repeat split; erewrite bind_eq by (by eapply load_bits_eq); by rewrite Hnull.
Qed.

(** X3. On a null handle or a bitset whose buffer is null, the queries
    return 0 and false, and [bitset_reset] and [bitset_free] do nothing. *)
Theorem uninitialized_defaults m b s :
  structs m !! b = Some s -> bits s = None ->
  (bitset_true_len (Some b) m = Some (0, m) /\ bitset_true_len None m = Some (0, m)) /\
  (bitset_all (Some b) m = Some (false, m) /\ bitset_all None m = Some (false, m)) /\
  (bitset_any (Some b) m = Some (false, m) /\ bitset_any None m = Some (false, m)) /\
  (bitset_reset (Some b) m = Some (tt, m) /\ bitset_reset None m = Some (tt, m)) /\
  (bitset_free (Some b) m = Some (tt, m) /\ bitset_free None m = Some (tt, m)).
Proof.
  intros Hb Hnull.
  unfold bitset_true_len, bitset_all, bitset_any, bitset_reset, bitset_free.
  repeat split; try done.
  1-4: erewrite bind_eq by (by eapply load_bits_eq); by rewrite Hnull.
  erewrite bind_eq by (by eapply load_bits_eq). rewrite Hnull.
  unfold free. unfold bind at 1. erewrite store_bits_eq by done.
  unfold with_struct. rewrite insert_id; [by rewrite mem_eta|].
  rewrite Hb. f_equal. destruct s as [sb sl]. cbn in *. by subst.
Qed.

(** ** Further properties: the queries *)

Lemma popcount_all cells : false ∉ cells <-> popcount cells = Z.of_nat (length cells).
Proof.
  induction cells as [|x cells IH]; [by split; [|intros _; apply not_elem_of_nil]|].
  rewrite popcount_cons, not_elem_of_cons. cbn [length].
  pose proof (popcount_bounds cells). destruct x.
  - rewrite IH. split; [intros [_ ?]; lia | intros ?; split; [done|lia]].
  - split; [by intros [? _] | lia].
Qed.

Lemma popcount_any cells : true ∈ cells <-> 0 < popcount cells.
Proof.
  induction cells as [|x cells IH]; [by split; [intros ?%elem_of_nil | ]|].
  rewrite popcount_cons, elem_of_cons.
  pose proof (popcount_bounds cells). destruct x.
  - split; [lia | by left].
  - rewrite IH. split; [intros [?|?]; [done|lia] | intros ?; right; lia].
Qed.

Lemma popcount_negb cells :
  popcount (negb <$> cells) = Z.of_nat (length cells) - popcount cells.
Proof.
  induction cells as [|x cells IH]; [done|].
  rewrite fmap_cons, !popcount_cons, IH. cbn [length]. destruct x; cbn; lia.
Qed.

(** X4. On an initialized bitset [bitset_true_len] returns the number of
    true cells, between 0 and [len], and leaves the memory as it was. *)
Theorem bitset_true_len_counts m b p cells :
  ready m b p cells ->
  bitset_true_len (Some b) m =
    Some (Z.of_nat (count_occ Bool.bool_dec cells true), m) /\
  (count_occ Bool.bool_dec cells true <= length cells)%nat.
Proof.
  intros Hr. split.
  - by rewrite (bitset_true_len_run m b p cells Hr).
  - pose proof (popcount_bounds cells). unfold popcount in *. lia.
Qed.

(** X5. On an initialized bitset [bitset_all] returns true exactly when
    every cell is true and [bitset_any] exactly when some cell is true;
    neither changes the memory. *)
Theorem bitset_all_any_meaning m b p cells :
  ready m b p cells ->
  exists a o,
    bitset_all (Some b) m = Some (a, m) /\
    bitset_any (Some b) m = Some (o, m) /\
    (a = true <-> forall i x, cells !! i = Some x -> x = true) /\
    (o = true <-> exists i, cells !! i = Some true).
Proof.
  intros Hr. eexists _, _.
  split; [by eapply bitset_all_run|]. split; [by eapply bitset_any_run|].
  rewrite !bool_decide_eq_true. split.
  - split.
    + intros Hno i [] Hx; [done|]. destruct Hno. by eapply list_elem_of_lookup_2.
    + intros Hall [i Hi]%list_elem_of_lookup_1. by specialize (Hall i false Hi).
  - apply list_elem_of_lookup.
Qed.

(** X6. On an initialized bitset the three queries agree: [bitset_all]
    returns true exactly when [bitset_true_len] returns [len], and
    [bitset_any] exactly when it returns a positive count. *)
Theorem bitset_queries_agree m b p cells :
  ready m b p cells ->
  exists a o c,
    bitset_all (Some b) m = Some (a, m) /\
    bitset_any (Some b) m = Some (o, m) /\
    bitset_true_len (Some b) m = Some (c, m) /\
    (a = true <-> c = Z.of_nat (length cells)) /\
    (o = true <-> 0 < c).
Proof.
  intros Hr. eexists _, _, _.
  split; [by eapply bitset_all_run|]. split; [by eapply bitset_any_run|].
  split; [by eapply bitset_true_len_run|].
  rewrite !bool_decide_eq_true. split; [apply popcount_all | apply popcount_any].
Qed.

(** ** Further properties: the operators *)

(** X7. On two initialized bitsets of the same length with different
    buffers, [bitset_and], [bitset_or] and [bitset_xor] return success and
    replace cell [i] of the left operand by the conjunction, disjunction or
    exclusive disjunction of the two cells [i]; nothing else changes, the
    right operand included. *)
Theorem bitset_binop_elementwise m l r lp rp cl cr :
  ready m l lp cl -> ready m r rp cr -> lp <> rp -> length cl = length cr ->
  bitset_and (Some l) (Some r) m = Some (BITSET_GOOD, with_cells m lp (zip_with andb cl cr)) /\
  bitset_or (Some l) (Some r) m = Some (BITSET_GOOD, with_cells m lp (zip_with orb cl cr)) /\
  bitset_xor (Some l) (Some r) m = Some (BITSET_GOOD, with_cells m lp (zip_with xorb cl cr)) /\
  (forall op, heap (with_cells m lp (zip_with op cl cr)) !! rp = Some cr) /\
  (forall (op : bool -> bool -> bool) i x y,
     cl !! i = Some x -> cr !! i = Some y -> zip_with op cl cr !! i = Some (op x y)).
Proof.
  intros Hl Hr Hne Hlen. unfold bitset_and, bitset_or, bitset_xor.
  rewrite !(bitset_binop_run _ m l r lp rp cl cr) by done.
  repeat split; try done.
  - intros op. cbn [with_cells heap]. rewrite lookup_insert_ne by done. apply Hr.
  - intros op i x y Hx Hy. rewrite lookup_zip_with, Hx. cbn. by rewrite Hy.
Qed.

(** X8. With the same initialized bitset as both operands, [bitset_and]
    and [bitset_or] return success and change nothing, and [bitset_xor]
    returns success and makes every cell false. *)
Theorem bitset_binop_self m b p cells :
  ready m b p cells ->
  bitset_and (Some b) (Some b) m = Some (BITSET_GOOD, m) /\
  bitset_or (Some b) (Some b) m = Some (BITSET_GOOD, m) /\
  bitset_xor (Some b) (Some b) m =
    Some (BITSET_GOOD, with_cells m p (replicate (length cells) false)).
Proof.
  intros Hr. unfold bitset_and, bitset_or, bitset_xor.
  rewrite !(bitset_binop_self_run _ m b b p cells) by done.
  assert (forall f : bool -> bool, (forall x, f x = x) -> f <$> cells = cells) as Hid.
  { intros f Hf. rewrite <- (list_fmap_id cells) at 2. by apply list_fmap_ext. }
  rewrite (Hid (fun x => x && x)) by (by intros []).
  rewrite (Hid (fun x => x || x)) by (by intros []).
  rewrite !with_cells_id by apply Hr.
  repeat split. do 3 f_equal.
  apply list_eq. intros i. rewrite list_lookup_fmap.
  destruct (cells !! i) as [x|] eqn:Hx; cbn.
  - rewrite lookup_replicate_2 by (by eapply lookup_lt_Some). by destruct x.
  - symmetry. apply lookup_replicate_None. by apply lookup_ge_None.
Qed.

(** X9. [bitset_not] on an initialized bitset returns success and negates
    every cell; applied twice it restores the memory; and after it
    [bitset_true_len] returns [len] minus the count it returned before. *)
Theorem bitset_not_flips m b p cells :
  ready m b p cells ->
  bitset_not (Some b) m = Some (BITSET_GOOD, with_cells m p (negb <$> cells)) /\
  (bitset_not (Some b);;; bitset_not (Some b)) m = Some (BITSET_GOOD, m) /\
  (bitset_not (Some b);;; bitset_true_len (Some b)) m =
    Some (Z.of_nat (length cells) - popcount cells, with_cells m p (negb <$> cells)).
Proof.
  intros Hr.
  assert (ready (with_cells m p (negb <$> cells)) b p (negb <$> cells)) as Hr'
    by (apply (ready_with_cells m b p cells); [done | by rewrite length_fmap]).
  rewrite (bitset_not_run m b p cells Hr). split; [done|]. split.
  - erewrite bind_eq by (by apply bitset_not_run).
    rewrite (bitset_not_run _ b p _ Hr'), with_cells_twice.
    rewrite <- list_fmap_compose.
    replace (negb ∘ negb <$> cells) with cells.
    + by rewrite with_cells_id by apply Hr.
    + rewrite <- (list_fmap_id cells) at 1. apply list_fmap_ext.
      intros i x _. by destruct x.
  - erewrite bind_eq by (by apply bitset_not_run).
    by rewrite (bitset_true_len_run _ b p _ Hr'), popcount_negb.
Qed.

(** X10. [bitset_reset] on an initialized bitset makes every cell false and
    changes nothing else; after it [bitset_true_len] returns 0 and
    [bitset_any] returns false. *)
Theorem bitset_reset_clears m b p cells :
  ready m b p cells ->
  let m' := with_cells m p (replicate (length cells) false) in
  bitset_reset (Some b) m = Some (tt, m') /\
  bitset_true_len (Some b) m' = Some (0, m') /\
  bitset_any (Some b) m' = Some (false, m').
Proof.
  intros Hr m'.
  assert (ready m' b p (replicate (length cells) false)) as Hr'
    by (apply (ready_with_cells m b p cells); [done | by rewrite length_replicate]).
  split; [by eapply bitset_reset_run|]. split.
  - by rewrite (bitset_true_len_run _ b p _ Hr'), popcount_replicate_false.
  - rewrite (bitset_any_run _ b p _ Hr'). rewrite bool_decide_eq_false_2; [done|].
    by intros [? _]%elem_of_replicate.
Qed.

(** ** Further properties: release *)

(** X11. [bitset_free] on an initialized bitset frees its block, makes its
    buffer null and keeps its [len]; a second [bitset_free] then changes
    nothing, and the released bitset is rejected by [bitset_not] and counted
    as empty by [bitset_true_len]. *)
Theorem bitset_free_releases m b p cells :
  ready m b p cells ->
  let m' := Mem (<[b := Bitset None (Z.of_nat (length cells))]> (structs m))
                (delete p (heap m)) in
  bitset_free (Some b) m = Some (tt, m') /\
  heap m' !! p = None /\
  bitset_free (Some b) m' = Some (tt, m') /\
  bitset_not (Some b) m' = Some (BITSET_NULL_ERR, m') /\
  bitset_true_len (Some b) m' = Some (0, m').
Proof.
  intros (Hb & Hp & _) m'.
  assert (structs m' !! b = Some (Bitset None (Z.of_nat (length cells)))) as Hb'
    by (cbn [m' structs]; apply lookup_insert_eq).
  split; [|split; [|split; [|split]]].
  - unfold bitset_free. erewrite bind_eq by (by eapply load_bits_eq). cbn [bits].
    unfold free. unfold bind at 1. rewrite Hp.
    unfold store_bits. cbn [structs heap]. by rewrite Hb.
  - cbn [m' heap]. apply lookup_delete_eq.
  - unfold bitset_free. erewrite bind_eq by (by eapply load_bits_eq). cbn [bits].
    unfold free. unfold bind at 1. unfold store_bits. rewrite Hb'. cbn [len].
    do 3 f_equal. unfold m'. cbn [structs heap]. by rewrite insert_insert_eq.
  - unfold bitset_not. by erewrite bind_eq by (by eapply load_bits_eq).
  - unfold bitset_true_len. by erewrite bind_eq by (by eapply load_bits_eq).
Qed.

(** ** Further properties: rotations *)

Lemma rotated_length k cells : length (rotated k cells) = length cells.
Proof. unfold rotated. len_solve. Qed.

(** Cell [i] of the rotated cells is cell [(i + k) mod len] of the
    original ones. *)
Lemma rotated_lookup k cells i :
  (k <= length cells)%nat -> (i < length cells)%nat ->
  rotated k cells !! i = cells !! ((i + k) mod length cells)%nat.
Proof.
  intros Hk Hi. unfold rotated.
  destruct (decide (i < length cells - k)%nat) as [Hlt|Hge].
  - rewrite lookup_app_l by len_solve. rewrite lookup_drop.
    rewrite Nat.mod_small by lia. f_equal. lia.
  - rewrite lookup_app_r by len_solve. rewrite length_drop.
    rewrite lookup_take_lt by lia.
    replace (i + k)%nat with ((i - (length cells - k)) + 1 * length cells)%nat by lia.
    rewrite Nat.Div0.mod_add. by rewrite Nat.mod_small by lia.
Qed.

Lemma rotated_rotated j k cells :
  (j <= length cells)%nat -> (k <= length cells)%nat ->
  rotated k (rotated j cells) = rotated ((j + k) mod length cells) cells.
Proof.
  intros Hj Hk. destruct (decide (length cells = 0)%nat) as [H0|Hpos].
  { destruct cells; [|done]. by destruct j, k. }
  assert ((j + k) mod length cells < length cells)%nat by (apply Nat.mod_upper_bound; lia).
  apply list_eq. intros i.
  destruct (decide (i < length cells)%nat) as [Hi|Hi].
  - rewrite rotated_lookup by (rewrite ?rotated_length; lia).
    rewrite rotated_length.
    rewrite rotated_lookup by (try apply Nat.mod_upper_bound; lia).
    rewrite rotated_lookup by lia. f_equal.
    rewrite Nat.Div0.add_mod_idemp_l, Nat.Div0.add_mod_idemp_r. f_equal. lia.
  - rewrite !lookup_ge_None_2; [done | rewrite ?rotated_length; lia ..].
Qed.

Lemma initialized_rotated m b p cells k :
  initialized m b p cells ->
  initialized (with_cells m p (rotated k cells)) b p (rotated k cells).
Proof.
  intros Hinit. apply (initialized_with_cells m b p cells); [done|].
  apply rotated_length.
Qed.

Lemma popcount_rotated k cells : popcount (rotated k cells) = popcount cells.
Proof.
  unfold rotated. rewrite popcount_app, Z.add_comm, <- popcount_app.
  by rewrite take_drop.
Qed.

(** The two rotations, with the scratch allocation succeeding, in one form
    for every amount. *)
Lemma bitset_lrot_rotated m b p cells n :
  initialized m b p cells -> is_size n ->
  bitset_lrot true (Some b) n m =
    Some (BITSET_GOOD,
          with_cells m p (rotated (Z.to_nat (n mod Z.of_nat (length cells))) cells)).
Proof.
  intros Hinit Hn. rewrite (bitset_lrot_run true m b p cells n) by done. cbv zeta.
  case_decide as Hk; [|done]. rewrite Hk. unfold rotated.
  change (Z.to_nat 0) with 0%nat. rewrite drop_0, take_0, app_nil_r.
  by rewrite with_cells_id by apply Hinit.
Qed.

Lemma bitset_rrot_rotated m b p cells n :
  initialized m b p cells -> is_size n ->
  bitset_rrot true (Some b) n m =
    Some (BITSET_GOOD,
          with_cells m p
            (rotated (length cells - Z.to_nat (n mod Z.of_nat (length cells))) cells)).
Proof.
  intros Hinit Hn. rewrite (bitset_rrot_run true m b p cells n) by done. cbv zeta.
  assert (0 <= n mod Z.of_nat (length cells) < Z.of_nat (length cells))
    by (apply Z.mod_pos_bound; apply Hinit).
  case_decide as Hk.
  - rewrite Hk. unfold rotated. change (Z.to_nat 0) with 0%nat.
    rewrite Nat.sub_0_r, drop_all, firstn_all. cbn [app].
    by rewrite with_cells_id by apply Hinit.
  - unfold rotated.
    by replace (Z.to_nat (Z.of_nat (length cells) - n mod Z.of_nat (length cells)))
      with (length cells - Z.to_nat (n mod Z.of_nat (length cells)))%nat by lia.
Qed.

(** X12. For an initialized bitset of length [len] and an amount [n] with
    [k = n mod len]: when [k = 0], [bitset_rrot] returns success and changes
    nothing; otherwise, when the scratch allocation succeeds, it returns
    success, the cells [len - k, len) become the head, the cells
    [0, len - k) move up to [k, len), and the new cells are a permutation of
    the old ones. *)
Theorem bitset_rrot_rotates m b p cells n :
  initialized m b p cells -> is_size n ->
  let k := Z.to_nat (n mod Z.of_nat (length cells)) in
  (k = 0%nat -> forall ok, bitset_rrot ok (Some b) n m = Some (BITSET_GOOD, m)) /\
  (k <> 0%nat ->
   exists cells',
     bitset_rrot true (Some b) n m = Some (BITSET_GOOD, with_cells m p cells') /\
     length cells' = length cells /\
     (forall i, (i < k)%nat -> cells' !! i = cells !! (length cells - k + i)%nat) /\
     (forall i, (i < length cells - k)%nat -> cells' !! (k + i)%nat = cells !! i) /\
     cells' ≡ₚ cells).
Proof.
  intros Hinit Hn k.
  assert (0 <= n mod Z.of_nat (length cells) < Z.of_nat (length cells)) as Hk.
  { apply Z.mod_pos_bound. apply Hinit. }
  split.
  - intros Hk0 ok. rewrite (bitset_rrot_run ok m b p cells n) by done.
    cbv zeta. rewrite decide_True by lia. done.
  - intros Hk0. exists (rotated (length cells - k) cells).
    split; [by apply bitset_rrot_rotated|].
    assert (k < length cells)%nat by lia. unfold rotated.
    split; [len_solve|]. split; [|split].
    + intros i Hi. rewrite lookup_app_l by len_solve. apply lookup_drop.
    + intros i Hi. rewrite lookup_app_r by len_solve.
      rewrite length_drop. rewrite lookup_take_lt by lia. f_equal. lia.
    + rewrite Permutation_app_comm. by rewrite take_drop.
Qed.

(** X13. Rotating an initialized bitset right by [k] and then left by the
    same [k] restores the memory, when both scratch allocations succeed. *)
Theorem bitset_rrot_lrot_restores m b p cells k :
  initialized m b p cells -> is_size k ->
  (bitset_rrot true (Some b) k;;; bitset_lrot true (Some b) k) m = Some (BITSET_GOOD, m).
Proof.
  intros Hinit Hk.
  set (r := Z.to_nat (k mod Z.of_nat (length cells))).
  assert (0 <= k mod Z.of_nat (length cells) < Z.of_nat (length cells))
    by (apply Z.mod_pos_bound; apply Hinit).
  erewrite bind_eq by (by apply bitset_rrot_rotated).
  rewrite (bitset_lrot_rotated _ b p (rotated (length cells - r) cells))
    by (done || by apply initialized_rotated).
  rewrite with_cells_twice, rotated_length. fold r.
  rewrite rotated_rotated by lia.
  replace (length cells - r + r)%nat with (1 * length cells)%nat by lia.
  rewrite Nat.Div0.mod_mul. unfold rotated. rewrite drop_0, take_0, app_nil_r.
  by rewrite with_cells_id by apply Hinit.
Qed.

(** X14. On an initialized bitset of length [len], a left rotation by [n]
    is the right rotation by [len - n mod len]: the two calls return the
    same status and the same memory, whether the allocation succeeds or
    not. *)
Theorem bitset_lrot_as_rrot ok m b p cells n :
  initialized m b p cells -> is_size n ->
  bitset_lrot ok (Some b) n m =
  bitset_rrot ok (Some b) (Z.of_nat (length cells) - n mod Z.of_nat (length cells)) m.
Proof.
  intros Hinit Hn.
  set (L := Z.of_nat (length cells)).
  assert (0 <= n mod L < L) as Hk by (apply Z.mod_pos_bound; apply Hinit).
  assert (is_size (L - n mod L)) as Hsz.
  { destruct Hinit as [(_ & _ & Hl) _]. unfold is_size in *. fold L in Hl. lia. }
  rewrite (bitset_lrot_run ok m b p cells n), (bitset_rrot_run ok m b p cells) by done.
  cbv zeta. fold L. destruct (decide (n mod L = 0)) as [H0|H0].
  - rewrite H0, Z.sub_0_r, Z.mod_same by lia. by rewrite decide_True by done.
  - rewrite (Z.mod_small (L - n mod L)) by lia.
    rewrite decide_False by lia. destruct ok; [|done].
    by replace (L - (L - n mod L)) with (n mod L) by lia.
Qed.

(** X15. Two left rotations of an initialized bitset, by [j] and then by
    [k], with both allocations succeeding, leave cell [(i + j + k) mod len]
    of the original cells in cell [i]: they are one rotation by
    [(j + k) mod len]. *)
Theorem bitset_lrot_compose m b p cells j k :
  initialized m b p cells -> is_size j -> is_size k ->
  exists cells',
    (bitset_lrot true (Some b) j;;; bitset_lrot true (Some b) k) m =
      Some (BITSET_GOOD, with_cells m p cells') /\
    length cells' = length cells /\
    forall i, (i < length cells)%nat ->
      cells' !! i = cells !! Z.to_nat ((Z.of_nat i + j + k) mod Z.of_nat (length cells)).
Proof.
  intros Hinit Hj Hk.
  set (L := Z.of_nat (length cells)).
  assert (0 < L) as HL by apply Hinit.
  assert (0 <= j mod L < L) by (apply Z.mod_pos_bound; lia).
  assert (0 <= k mod L < L) by (apply Z.mod_pos_bound; lia).
  exists (rotated (Z.to_nat (k mod L)) (rotated (Z.to_nat (j mod L)) cells)).
  split; [|split].
  - erewrite bind_eq by (by apply bitset_lrot_rotated). fold L.
    rewrite (bitset_lrot_rotated _ b p (rotated (Z.to_nat (j mod L)) cells))
      by (done || by apply initialized_rotated).
    by rewrite with_cells_twice, rotated_length.
  - by rewrite !rotated_length.
  - intros i Hi. rewrite rotated_rotated by lia.
    rewrite rotated_lookup by (try apply Nat.lt_le_incl, Nat.mod_upper_bound; lia).
    f_equal. rewrite Nat.Div0.add_mod_idemp_r.
    apply Nat2Z.inj. rewrite Nat2Z.inj_mod, Z2Nat.id by (apply Z.mod_pos_bound; lia).
    rewrite !Nat2Z.inj_add, !Z2Nat.id by lia. fold L.
    rewrite <- (Zplus_mod_idemp_r (j mod L + k mod L)).
    rewrite <- Z.add_mod by lia. rewrite Zplus_mod_idemp_r.
    f_equal. lia.
Qed.

(** X16. The rotations keep the number of true cells: after [bitset_lrot]
    or [bitset_rrot] of an initialized bitset, with the allocation
    succeeding, [bitset_true_len] returns what it returned before. *)
Theorem bitset_rot_keeps_count m b p cells n :
  initialized m b p cells -> is_size n ->
  exists c ml mr,
    bitset_true_len (Some b) m = Some (c, m) /\
    (bitset_lrot true (Some b) n;;; bitset_true_len (Some b)) m = Some (c, ml) /\
    (bitset_rrot true (Some b) n;;; bitset_true_len (Some b)) m = Some (c, mr).
Proof.
  intros Hinit Hn. eexists _, _, _.
  split; [apply (bitset_true_len_run m b p cells), Hinit|]. split.
  - erewrite bind_eq by (by apply bitset_lrot_rotated).
    erewrite bitset_true_len_run
      by (apply (ready_with_cells m b p cells); [apply Hinit | apply rotated_length]).
    by rewrite popcount_rotated.
  - erewrite bind_eq by (by apply bitset_rrot_rotated).
    erewrite bitset_true_len_run
      by (apply (ready_with_cells m b p cells); [apply Hinit | apply rotated_length]).
    by rewrite popcount_rotated.
Qed.

(** ** Further properties: shifts *)

(** The two shifts in one form for every amount. *)
Lemma bitset_lsh_shifted m b p cells n :
  ready m b p cells -> is_size n ->
  bitset_lsh (Some b) n m =
    Some (BITSET_GOOD,
          with_cells m p (drop (Z.to_nat n) cells ++
                          replicate (Nat.min (Z.to_nat n) (length cells)) false)).
Proof.
  intros Hr Hn. rewrite (bitset_lsh_run m b p cells n) by done.
  unfold is_size in Hn. repeat case_decide.
  - subst n. change (Z.to_nat 0) with 0%nat. rewrite drop_0. cbn [Nat.min replicate].
    by rewrite app_nil_r, with_cells_id by apply Hr.
  - rewrite drop_ge, Nat.min_r by lia. done.
  - by rewrite Nat.min_l by lia.
Qed.

Lemma bitset_rsh_shifted m b p cells n :
  ready m b p cells -> is_size n ->
  bitset_rsh (Some b) n m =
    Some (BITSET_GOOD,
          with_cells m p (replicate (Nat.min (Z.to_nat n) (length cells)) false ++
                          take (length cells - Z.to_nat n) cells)).
Proof.
  intros Hr Hn. rewrite (bitset_rsh_run m b p cells n) by done.
  unfold is_size in Hn. repeat case_decide.
  - subst n. change (Z.to_nat 0) with 0%nat. cbn [Nat.min replicate app].
    by rewrite Nat.sub_0_r, firstn_all, with_cells_id by apply Hr.
  - replace (length cells - Z.to_nat n)%nat with 0%nat by lia.
    by rewrite take_0, app_nil_r, Nat.min_r by lia.
  - by rewrite Nat.min_l by lia.
Qed.

(** X17. On an initialized bitset and for [0 < k < len], shifting left by
    [k] and then right by [k] clears the cells [0, k) and leaves the cells
    [k, len) where they were; shifting right and then left clears the cells
    [len - k, len) and leaves the cells [0, len - k) where they were. *)
Theorem bitset_shift_there_and_back m b p cells k :
  ready m b p cells -> 0 < k < Z.of_nat (length cells) ->
  (bitset_lsh (Some b) k;;; bitset_rsh (Some b) k) m =
    Some (BITSET_GOOD,
          with_cells m p (replicate (Z.to_nat k) false ++ drop (Z.to_nat k) cells)) /\
  (bitset_rsh (Some b) k;;; bitset_lsh (Some b) k) m =
    Some (BITSET_GOOD,
          with_cells m p (take (length cells - Z.to_nat k) cells ++
                          replicate (Z.to_nat k) false)).
Proof.
  intros Hr Hk.
  assert (is_size k) as Hsz by (destruct Hr as (_ & _ & Hl); unfold is_size in *; lia).
  assert (Z.to_nat k < length cells)%nat by lia.
  split.
  - erewrite bind_eq by (by apply bitset_lsh_shifted).
    erewrite bitset_rsh_shifted;
      [ | apply (ready_with_cells m b p cells); [done | len_solve] | done ].
    rewrite with_cells_twice. do 3 f_equal.
    rewrite !length_app, length_drop, length_replicate.
    rewrite take_app_length' by len_solve.
    f_equal. f_equal. lia.
  - erewrite bind_eq by (by apply bitset_rsh_shifted).
    erewrite bitset_lsh_shifted;
      [ | apply (ready_with_cells m b p cells); [done | len_solve] | done ].
    rewrite with_cells_twice. do 3 f_equal.
    rewrite !length_app, length_take, length_replicate.
    rewrite drop_app_length' by len_solve.
    f_equal. f_equal. lia.
Qed.

(** X18. Two left shifts of an initialized bitset, by [j] and then by [k],
    are one left shift by [j + k]: the cells [j + k, len) move down to
    [0, len - j - k) and the rest is false, all of it when [j + k >= len]. *)
Theorem bitset_lsh_compose m b p cells j k :
  ready m b p cells -> is_size j -> is_size k ->
  (bitset_lsh (Some b) j;;; bitset_lsh (Some b) k) m =
    Some (BITSET_GOOD,
          with_cells m p
            (drop (Z.to_nat (j + k)) cells ++
             replicate (Nat.min (Z.to_nat (j + k)) (length cells)) false)).
Proof.
  intros Hr Hj Hk.
  erewrite bind_eq by (by apply bitset_lsh_shifted).
  erewrite bitset_lsh_shifted;
    [ | apply (ready_with_cells m b p cells); [done | len_solve] | done ].
  rewrite with_cells_twice. do 3 f_equal.
  unfold is_size in Hj, Hk.
  rewrite drop_app, drop_drop, drop_replicate, <- (assoc_L (++)), <- replicate_add.
  rewrite !length_app, !length_drop, !length_replicate.
  f_equal; [f_equal; lia | f_equal; lia].
Qed.

(** ** Further properties: the bits of a character *)

Lemma msb_first_lookup c (j : nat) :
  (j < 8)%nat ->
  msb_first c !! j = Some (Z.testbit (Z.of_N (N_of_ascii c)) (7 - Z.of_nat j)).
Proof.
  intros Hj. unfold msb_first.
  do 8 (destruct j as [|j]; [reflexivity|]). lia.
Qed.

(** X19. For every character, [bits_from_char] stays inside its 8-cell
    array and ends; cell [j] of the array it returns is bit [7 - j] of the
    character's byte value, so that reading the cells as a binary numeral,
    most significant digit first, gives that value back. *)
Theorem bits_from_char_bits c :
  exists bin,
    bits_from_char c = Some bin /\
    length bin = 8%nat /\
    (forall j : nat, (j < 8)%nat ->
       bin !! j = Some (Z.testbit (Z.of_N (N_of_ascii c)) (7 - Z.of_nat j))) /\
    foldl (fun acc (v : bool) => 2 * acc + (if v then 1 else 0)) 0 bin =
      Z.of_N (N_of_ascii c).
Proof.
  exists (msb_first c).
  split; [apply bits_from_char_msb|]. split; [done|].
  split; [intros j Hj; by apply msb_first_lookup|].
  destruct c as [[] [] [] [] [] [] [] []]; vm_compute; reflexivity.
Qed.

(** ** Further properties: construction from a byte string *)

Lemma length_concat_msb chars :
  length (concat (msb_first <$> chars)) = (8 * length chars)%nat.
Proof.
  induction chars as [|c chars IH]; [done|].
  rewrite fmap_cons. cbn [concat]. rewrite length_app, IH. cbn [length]. rewrite length_msb_first. lia.
Qed.

Lemma lookup_concat_msb chars : forall i j : nat,
  (j < 8)%nat ->
  concat (msb_first <$> chars) !! (8 * i + j)%nat =
    (fun c => Z.testbit (Z.of_N (N_of_ascii c)) (7 - Z.of_nat j)) <$> chars !! i.
Proof.
  induction chars as [|c chars IH]; intros i j Hj; [done|].
  rewrite fmap_cons. cbn [concat]. destruct i as [|i].
  - rewrite lookup_app_l by (rewrite length_msb_first; lia).
    rewrite Nat.mul_0_r, Nat.add_0_l. cbn [lookup list_lookup fmap option_fmap option_map].
    by apply msb_first_lookup.
  - rewrite lookup_app_r by (rewrite length_msb_first; lia).
    rewrite length_msb_first.
    replace (8 * S i + j - 8)%nat with (8 * i + j)%nat by lia.
    by rewrite IH.
Qed.

(** X20. For a non-null handle, a terminated string and [n > 0] with
    [n * 8 <= SIZE_MAX], construction from a byte string succeeds when the
    allocation does; the bitset then has [n * 8] cells, and cell [8 i + j]
    is bit [7 - j] of character [i] where the string has a character at [i]
    before its terminator, and false elsewhere. *)
Theorem bitset_init_str_cells m b s0 chars rest n :
  structs m !! b = Some s0 -> NUL ∉ chars -> 0 < n -> n * 8 <= SIZE_MAX ->
  exists q cells,
    bitset_init_str true (Some b) (Some (chars ++ NUL :: rest)) n m =
      Some (BITSET_GOOD,
            Mem (<[b := Bitset (Some q) (n * 8)]> (structs m)) (<[q := cells]> (heap m))) /\
    heap m !! q = None /\
    Z.of_nat (length cells) = n * 8 /\
    forall i j : nat, Z.of_nat i < n -> (j < 8)%nat ->
      cells !! (8 * i + j)%nat =
        Some (match chars !! i with
              | Some c => Z.testbit (Z.of_N (N_of_ascii c)) (7 - Z.of_nat j)
              | None => false
              end).
Proof.
  intros Hb Hnul Hn Hmax. eexists _, _.
  split; [by eapply bitset_init_str_run|].
  split; [apply fresh_block_free|].
  assert (length (concat (msb_first <$> take (Z.to_nat n) chars)) =
          8 * Nat.min (Z.to_nat n) (length chars))%nat as Hlen
    by (by rewrite length_concat_msb, length_take).
  split; [rewrite length_app, Hlen, length_replicate; lia|].
  intros i j Hi Hj.
  destruct (decide (i < length chars)%nat) as [Hlt|Hge].
  - rewrite lookup_app_l by (rewrite Hlen; lia).
    rewrite lookup_concat_msb by done.
    rewrite lookup_take_lt by lia.
    destruct (lookup_lt_is_Some_2 chars i Hlt) as [c Hc]. by rewrite Hc.
  - rewrite lookup_app_r by (rewrite Hlen; lia).
    rewrite lookup_replicate_2 by (rewrite Hlen; lia).
    by rewrite lookup_ge_None_2 by lia.
Qed.

(** ** Further properties: construction from a bit string *)

(** The loop on an array that holds no terminator in the part the loop
    reads. *)
Lemma bstr_fill_counted str : forall m q cells n (i : nat),
  heap m !! q = Some cells -> n <= Z.of_nat (length cells) ->
  (Z.to_nat n - i <= length str)%nat -> NUL ∉ take (Z.to_nat n - i) str ->
  bstr_fill q n (Z.of_nat i) str m =
    Some (tt, with_cells m q
                (take i cells ++
                 ((fun c => bool_decide (c = "1"%char)) <$> take (Z.to_nat n - i) str) ++
                 drop (i + (Z.to_nat n - i)) cells)).
Proof.
  induction str as [|c str IH]; intros m q cells n i Hq Hn Hlen Hnul.
  - cbn [length] in Hlen. cbn [bstr_fill]. rewrite decide_False by lia.
    replace (Z.to_nat n - i)%nat with 0%nat by lia.
    rewrite take_nil, Nat.add_0_r. cbn [fmap list_fmap app].
    by rewrite take_drop, with_cells_id by done.
  - cbn [bstr_fill]. destruct (decide (Z.of_nat i < n)) as [Hi|Hi].
    + replace (Z.to_nat n - i)%nat with (S (Z.to_nat n - S i)) in * by lia.
      rewrite firstn_cons in Hnul. apply not_elem_of_cons in Hnul as [Hc Hnul].
      cbn [length] in Hlen.
      rewrite decide_False by done. unfold write_cell.
      erewrite bind_eq by (eapply write_cells_eq; [done | lia | cbn [length]; lia]).
      replace (Z.of_nat i + 1) with (Z.of_nat (S i)) by lia.
      erewrite IH; [ | apply lookup_insert_eq | len_solve | lia | done ].
      rewrite with_cells_twice. do 3 f_equal.
      rewrite Nat2Z.id. cbn [length].
      assert (i < length cells)%nat by lia.
      rewrite (assoc_L (++) (take i cells) [_]).
      rewrite take_app_length' by len_solve.
      rewrite drop_app_ge by len_solve. rewrite drop_drop.
      rewrite firstn_cons, fmap_cons, <- (assoc_L (++)). cbn [app].
      do 3 f_equal. f_equal. len_solve.
    + replace (Z.to_nat n - i)%nat with 0%nat by lia.
      rewrite take_0, Nat.add_0_r. cbn [fmap list_fmap app].
      by rewrite take_drop, with_cells_id by done.
Qed.

(** X21. [bitset_init_bstr] reads at most [n] characters: on an array of at
    least [n] characters with no terminator among the first [n], terminated
    or not, it succeeds when the allocation does, and cell [i] is true
    exactly when character [i] is ['1'], for each of the [n] cells. *)
Theorem bitset_init_bstr_counted m b s0 str n :
  structs m !! b = Some s0 -> 0 < n ->
  n <= Z.of_nat (length str) -> NUL ∉ take (Z.to_nat n) str ->
  bitset_init_bstr true (Some b) (Some str) n m =
    Some (BITSET_GOOD,
          Mem (<[b := Bitset (Some (fresh_block m)) n]> (structs m))
              (<[fresh_block m :=
                   (fun c => bool_decide (c = "1"%char)) <$> take (Z.to_nat n) str]>
                 (heap m))).
Proof.
  intros Hb Hn Hlen Hnul. unfold bitset_init_bstr.
  rewrite decide_False by lia.
  rewrite (alloc_prologue true m b s0 n) by done.
  erewrite bind_eq; cycle 1.
  { eapply (bstr_fill_counted str _ _ _ n 0%nat).
    - cbn [heap]. apply lookup_insert_eq.
    - rewrite length_replicate. lia.
    - lia.
    - by rewrite Nat.sub_0_r. }
  unfold ret, with_cells. cbn [structs heap]. rewrite insert_insert_eq.
  do 4 f_equal. rewrite take_0, Nat.sub_0_r. cbn [app].
  rewrite drop_ge by (rewrite length_replicate; lia). apply app_nil_r.
Qed.

(** ** Further properties: the constructors and the old contents *)

(** X22. When [calloc] fails in a constructor called with a non-null handle
    (and string) and [n] not zero, the call returns [BITSET_ALLOC_ERR]; the
    struct is left with a null buffer and the new length, which is [n] and,
    for [bitset_init_str], the product [n * CHAR_LEN] reduced modulo
    [SIZE_MAX + 1]; the heap is untouched, and the bitset is then rejected
    as uninitialized. *)
Theorem constructors_alloc_failure m b s0 str n :
  structs m !! b = Some s0 -> n <> 0 ->
  let failed l := Mem (<[b := Bitset None l]> (structs m)) (heap m) in
  bitset_init false (Some b) n m = Some (BITSET_ALLOC_ERR, failed n) /\
  bitset_init_bstr false (Some b) (Some str) n m = Some (BITSET_ALLOC_ERR, failed n) /\
  bitset_init_str false (Some b) (Some str) n m =
    Some (BITSET_ALLOC_ERR, failed ((n * 8) mod 2 ^ size_bits)) /\
  forall l, bitset_not (Some b) (failed l) = Some (BITSET_NULL_ERR, failed l).
Proof.
  intros Hb Hn failed.
  split; [by eapply bitset_init_alloc_failure|].
  split; [by eapply bitset_init_bstr_alloc_failure|].
  split; [by erewrite bitset_init_str_alloc_failure|].
  intros l. unfold bitset_not.
  erewrite bind_eq; cycle 1.
  { eapply (load_bits_eq _ _ (Bitset None l)). unfold failed. cbn [structs].
    apply lookup_insert_eq. }
  done.
Qed.

(** X23. [bitset_init] does not free the buffer the struct had: called on
    an initialized bitset it succeeds (when [calloc] does) and leaves the
    old block live, with its cells, while the struct points to a new
    block; if no other struct pointed to the old block, none points to it
    afterwards. *)
Theorem bitset_init_keeps_old_block m b p cells n :
  ready m b p cells -> 0 < n ->
  (forall b' s', structs m !! b' = Some s' -> bits s' = Some p -> b' = b) ->
  exists m' q,
    bitset_init true (Some b) n m = Some (BITSET_GOOD, m') /\
    q <> p /\
    structs m' !! b = Some (Bitset (Some q) n) /\
    heap m' !! p = Some cells /\
    forall b' s', structs m' !! b' = Some s' -> bits s' <> Some p.
Proof.
  intros (Hb & Hp & _) Hn Hown.
  pose proof (fresh_block_free m) as Hfresh.
  assert (fresh_block m <> p) as Hne by congruence.
  eexists _, (fresh_block m).
  split; [apply (bitset_init_run m b _ n Hb); lia|].
  split; [done|]. cbn [structs heap].
  split; [apply lookup_insert_eq|].
  split; [by rewrite lookup_insert_ne by done|].
  intros b' s' Hb' Hp'.
  apply lookup_insert_Some in Hb' as [[<- <-]|[Hnb Hb']].
  - cbn [bits] in Hp'. congruence.
  - apply Hnb. symmetry. by eapply Hown.
Qed.

(** ** Further properties: what the operations leave alone *)

Lemma read_only_ret {A} (a : A) : read_only (ret a).
Proof. by intros m a' m' [= _ <-]. Qed.

Lemma read_only_bind {A B} (c : M A) (f : A -> M B) :
  read_only c -> (forall a, read_only (f a)) -> read_only (bind c f).
Proof.
  intros Hc Hf m b m' Hrun. apply bind_inv in Hrun as (a & m1 & Hcm & Hfm).
  apply Hc in Hcm as ->. by eapply Hf.
Qed.

Lemma read_only_load_bits b : read_only (load_bits b).
Proof.
  intros m a m' Hrun. unfold load_bits in Hrun.
  destruct (structs m !! b); [|done]. by injection Hrun as _ <-.
Qed.

Lemma read_only_load_len b : read_only (load_len b).
Proof.
  intros m a m' Hrun. unfold load_len in Hrun.
  destruct (structs m !! b); [|done]. by injection Hrun as _ <-.
Qed.

Lemma read_only_read_cell p i : read_only (read_cell p i).
Proof.
  apply read_only_bind.
  - intros m a m' Hrun. unfold read_cells in Hrun.
    destruct (heap m !! p); [|done]. destruct (sub_cells _ _ _); [|done].
    by injection Hrun as _ <-.
  - intros [|v [|? ?]]; try done. apply read_only_ret.
Qed.

Lemma read_only_true_len_loop p k : forall i acc, read_only (true_len_loop k p i acc).
Proof.
  induction k as [|k IH]; intros i acc; cbn [true_len_loop].
  - apply read_only_ret.
  - apply read_only_bind; [apply read_only_read_cell | intros v; apply IH].
Qed.

Lemma read_only_scan_loop stop p k : forall i, read_only (scan_loop stop k p i).
Proof.
  induction k as [|k IH]; intros i; cbn [scan_loop].
  - apply read_only_ret.
  - apply read_only_bind; [apply read_only_read_cell|].
    intros v. case_match; [apply read_only_ret | apply IH].
Qed.

(** X24. Whenever they return, whatever the memory and the arguments, the
    three queries have left the whole memory as it was. *)
Theorem queries_read_only b :
  read_only (bitset_true_len b) /\ read_only (bitset_all b) /\ read_only (bitset_any b).
Proof.
  unfold bitset_true_len, bitset_all, bitset_any.
  destruct b as [b|]; [|split; [|split]; apply read_only_ret].
  split; [|split].
  all: apply read_only_bind; [apply read_only_load_bits|].
  all: intros [p|]; [|apply read_only_ret].
  all: apply read_only_bind; [apply read_only_load_len|]; intros l.
  - apply read_only_true_len_loop.
  - apply read_only_bind; [apply read_only_scan_loop | intros v; apply read_only_ret].
  - apply read_only_scan_loop.
Qed.

(** X25. Whenever they return, whatever the memory and the arguments, the
    operators, the shifts and [bitset_reset] have changed no struct (no
    [len], no buffer pointer), and have neither allocated nor freed nor
    resized a block: the live blocks and their sizes are the same. *)
Theorem operations_keep_shape lhs rhs b n :
  keeps_shape (bitset_and lhs rhs) /\ keeps_shape (bitset_or lhs rhs) /\
  keeps_shape (bitset_xor lhs rhs) /\ keeps_shape (bitset_not b) /\
  keeps_shape (bitset_lsh b n) /\ keeps_shape (bitset_rsh b n) /\
  keeps_shape (bitset_reset b).
Proof.
  unfold bitset_and, bitset_or, bitset_xor.
  split; [apply keeps_shape_binop|]. split; [apply keeps_shape_binop|].
  split; [apply keeps_shape_binop|]. split; [apply keeps_shape_not|].
  split; [apply keeps_shape_lsh|]. split; [apply keeps_shape_rsh|].
  apply keeps_shape_reset.
Qed.

(** ** Further properties: the memories the interface reaches *)

Lemma sound_usable m b : sound m -> is_Some (structs m !! b) -> usable m b.
Proof.
  intros [Hall _] [s Hb]. exists s. split; [done|].
  destruct (bits s) as [p|] eqn:Hp; [|done].
  destruct (Hall b s p Hb Hp) as (cells & [(_ & Hc & _) _] & Hlen). by exists cells.
Qed.

(** X26. In a memory reached from a pristine one by calls of the public
    functions in which [n * CHAR_LEN] never exceeds [SIZE_MAX], every
    struct with a non-null buffer points to a live block of exactly [len]
    cells, its [len] is positive, and no other struct points to that
    block. *)
Theorem reachable_nowrap_data_model m b s p :
  reachable_nowrap m -> structs m !! b = Some s -> bits s = Some p ->
  (exists cells, heap m !! p = Some cells /\ len s = Z.of_nat (length cells)) /\
  0 < len s <= SIZE_MAX /\
  (forall b' s', structs m !! b' = Some s' -> bits s' = Some p -> b' = b).
Proof.
  intros Hreach Hb Hp. apply reachable_nowrap_sound in Hreach as [Hall Hun].
  destruct (Hall b s p Hb Hp) as (cells & [(_ & Hc & Hsz) Hpos] & Hlen).
  split; [by exists cells|]. split.
  - rewrite Hlen. unfold is_size in Hsz. lia.
  - intros b' s' Hb' Hp'. by eapply Hun.
Qed.

(** X27. In such a memory no call of a query, an operator, a shift, a
    rotation, [bitset_reset], [bitset_free] or [bitset_init] on null
    pointers or addresses of structs has undefined behaviour: each
    returns. *)
Theorem reachable_nowrap_calls_defined m b r n ok :
  reachable_nowrap m -> valid_ptr m b -> valid_ptr m r -> is_size n ->
  is_Some (bitset_true_len b m) /\ is_Some (bitset_all b m) /\
  is_Some (bitset_any b m) /\
  is_Some (bitset_and b r m) /\ is_Some (bitset_or b r m) /\
  is_Some (bitset_xor b r m) /\ is_Some (bitset_not b m) /\
  is_Some (bitset_lsh b n m) /\ is_Some (bitset_rsh b n m) /\
  is_Some (bitset_lrot ok b n m) /\ is_Some (bitset_rrot ok b n m) /\
  is_Some (bitset_reset b m) /\ is_Some (bitset_free b m) /\
  is_Some (bitset_init ok b n m).
Proof.
  intros Hreach Hb Hr Hn. apply reachable_nowrap_sound in Hreach as Hsound.
  destruct b as [b|]; [|by repeat split; eexists].
  assert (is_Some (bitset_and (Some b) r m) /\ is_Some (bitset_or (Some b) r m) /\
          is_Some (bitset_xor (Some b) r m)) as Hbin.
  { unfold bitset_and, bitset_or, bitset_xor.
    destruct r as [r|].
    - repeat split.
      all: edestruct (bitset_binop_total) as (st & m' & -> & _);
        [by apply sound_usable | by apply sound_usable | by eexists].
    - destruct Hb as [s Hb]. by repeat split; eexists. }
  assert (is_Some (bitset_init ok (Some b) n m)) as Hinit.
  { destruct Hb as [s Hb]. unfold bitset_init. case_decide; [by eexists|].
    rewrite (alloc_prologue ok m b s n) by done. by destruct ok; eexists. }
  assert (is_Some (bitset_not (Some b) m)) as Hnot.
  { destruct (bitset_not_total m b) as (? & ? & -> & _); [by apply sound_usable | by eexists]. }
  assert (is_Some (bitset_reset (Some b) m)) as Hreset.
  { destruct (bitset_reset_total m b) as (? & ? & -> & _); [by apply sound_usable | by eexists]. }
  destruct Hbin as (Hand & Hor & Hxor).
  destruct Hb as [s Hb]. destruct (bits s) as [p|] eqn:Hp.
  - destruct (proj1 Hsound b s p Hb Hp) as (cells & Hi & _).
    pose proof Hi as [Hrd _]. pose proof Hrd as (Hbs & Hc & _).
    assert (is_Some (bitset_free (Some b) m)) as Hfree.
    { unfold bitset_free. erewrite bind_eq by (by eapply load_bits_eq). cbn [bits].
      unfold free. unfold bind at 1. rewrite Hc.
      unfold store_bits. cbn [structs]. rewrite Hbs. by eexists. }
    rewrite (bitset_true_len_run m b p cells), (bitset_all_run m b p cells),
      (bitset_any_run m b p cells), (bitset_lsh_run m b p cells n),
      (bitset_rsh_run m b p cells n), (bitset_lrot_run ok m b p cells n),
      (bitset_rrot_run ok m b p cells n) by done.
    split_and!; try done; by eexists.
  - assert (is_Some (bitset_free (Some b) m)) as Hfree.
    { unfold bitset_free. erewrite bind_eq by (by eapply load_bits_eq). rewrite Hp.
      unfold free. unfold bind at 1. unfold store_bits. rewrite Hb. by eexists. }
    split_and!; try done.
    all: unfold bitset_true_len, bitset_all, bitset_any, bitset_lsh, bitset_rsh,
      bitset_lrot, bitset_rrot.
    all: erewrite bind_eq by (by eapply load_bits_eq); rewrite Hp; by eexists.
Qed.

End Bitset.

(** * Instances on a 64-bit [size_t] *)

Lemma one_handle_pristine : pristine one_handle.
Proof.
  split; [done|]. intros b s Hb. unfold one_handle in Hb. cbn [structs] in Hb.
  apply lookup_singleton_Some in Hb as [_ <-]. done.
Qed.

Ltac size_ok := unfold is_size, SIZE_MAX; cbv; intuition discriminate.

Lemma two_bitsets_initialized :
  initialized 64 two_bitsets 1%positive 1%positive [true; false; true; false; false].
Proof. repeat split; try reflexivity; size_ok. Qed.

Lemma bitset_lrot_rotates_witness :
  let cells := [true; false; true; false; false] in
  let k := Z.to_nat (7 mod Z.of_nat (length cells)) in
  (k = 0%nat ->
   forall ok, bitset_lrot 64 ok (Some 1%positive) 7 two_bitsets = Some (BITSET_GOOD, two_bitsets)) /\
  (k <> 0%nat ->
   exists cells',
     bitset_lrot 64 true (Some 1%positive) 7 two_bitsets =
       Some (BITSET_GOOD, with_cells two_bitsets 1%positive cells') /\
     length cells' = length cells /\
     (forall i, (i < length cells - k)%nat -> cells' !! i = cells !! (k + i)%nat) /\
     (forall i, (i < k)%nat -> cells' !! (length cells - k + i)%nat = cells !! i) /\
     cells' ≡ₚ cells).
Proof.
  apply (bitset_lrot_rotates 64 two_bitsets 1%positive 1%positive [true; false; true; false; false] 7).
  - exact two_bitsets_initialized.
  - size_ok.
Defined.

Lemma bitset_shift_zero_fills_witness :
  let cells := [true; false; true; false; false] in
  (2 = 0 ->
   bitset_lsh 64 (Some 1%positive) 2 two_bitsets = Some (BITSET_GOOD, two_bitsets) /\
   bitset_rsh 64 (Some 1%positive) 2 two_bitsets = Some (BITSET_GOOD, two_bitsets)) /\
  (Z.of_nat (length cells) <= 2 ->
   bitset_lsh 64 (Some 1%positive) 2 two_bitsets =
     Some (BITSET_GOOD, with_cells two_bitsets 1%positive (replicate (length cells) false)) /\
   bitset_rsh 64 (Some 1%positive) 2 two_bitsets =
     Some (BITSET_GOOD, with_cells two_bitsets 1%positive (replicate (length cells) false))) /\
  (0 < 2 < Z.of_nat (length cells) ->
   bitset_lsh 64 (Some 1%positive) 2 two_bitsets =
     Some (BITSET_GOOD,
           with_cells two_bitsets 1%positive (drop (Z.to_nat 2) cells ++ replicate (Z.to_nat 2) false)) /\
   bitset_rsh 64 (Some 1%positive) 2 two_bitsets =
     Some (BITSET_GOOD,
           with_cells two_bitsets 1%positive (replicate (Z.to_nat 2) false ++
                                     take (length cells - Z.to_nat 2) cells))).
Proof.
  apply (bitset_shift_zero_fills 64 two_bitsets 1%positive 1%positive [true; false; true; false; false] 2).
  - apply two_bitsets_initialized.
  - size_ok.
Defined.

Lemma bitset_lrot_rrot_restores_witness :
  (exists m1, bitset_lrot 64 true (Some 1%positive) 7 two_bitsets = Some (BITSET_GOOD, m1) /\
              bitset_rrot 64 true (Some 1%positive) 7 m1 = Some (BITSET_GOOD, two_bitsets)) /\
  (forall ok1 ok2 m1 m2,
     bitset_lrot 64 ok1 (Some 1%positive) 7 two_bitsets = Some (BITSET_GOOD, m1) ->
     bitset_rrot 64 ok2 (Some 1%positive) 7 m1 = Some (BITSET_GOOD, m2) ->
     m2 = two_bitsets).
Proof.
  apply (bitset_lrot_rrot_restores 64 two_bitsets 1%positive 1%positive [true; false; true; false; false] 7).
  - exact two_bitsets_initialized.
  - size_ok.
Defined.

Lemma bitset_rot_alloc_failure_witness :
  bitset_lrot 64 false (Some 1%positive) 7 two_bitsets = Some (BITSET_ALLOC_ERR, two_bitsets) /\
  bitset_rrot 64 false (Some 1%positive) 7 two_bitsets = Some (BITSET_ALLOC_ERR, two_bitsets).
Proof.
  apply (bitset_rot_alloc_failure 64 two_bitsets 1%positive (Bitset (Some 1%positive) 5) 1%positive 7).
  - reflexivity.
  - reflexivity.
  - cbv. discriminate.
  - cbv. discriminate.
Defined.

Lemma bitset_binop_length_error_witness :
  bitset_and (Some 1%positive) (Some 2%positive) two_bitsets =
    Some (BITSET_LENGTH_ERR, two_bitsets) /\
  bitset_or (Some 1%positive) (Some 2%positive) two_bitsets =
    Some (BITSET_LENGTH_ERR, two_bitsets) /\
  bitset_xor (Some 1%positive) (Some 2%positive) two_bitsets =
    Some (BITSET_LENGTH_ERR, two_bitsets).
Proof.
  apply (bitset_binop_length_error two_bitsets 1%positive 2%positive
           (Bitset (Some 1%positive) 5) (Bitset (Some 2%positive) 3)).
  - reflexivity.
  - reflexivity.
  - by eexists.
  - by eexists.
  - cbv. discriminate.
Defined.

Lemma bitset_init_bstr_cells_witness :
  (exists q cells,
     bitset_init_bstr true (Some 1%positive) (Some (["1"; "0"; "1"]%char ++ NUL :: [])) 5
       one_handle =
       Some (BITSET_GOOD,
             Mem (<[1%positive := Bitset (Some q) 5]> (structs one_handle))
                 (<[q := cells]> (heap one_handle))) /\
     heap one_handle !! q = None /\
     Z.of_nat (length cells) = 5 /\
     forall i, (i < length cells)%nat ->
       cells !! i = Some (bool_decide (["1"; "0"; "1"]%char !! i = Some "1"%char))) /\
  bitset_init_bstr true (Some 1%positive) (Some ["1"; "0"; "1"; NUL]%char) 5 one_handle =
    Some (BITSET_GOOD,
          Mem (<[1%positive := Bitset (Some (fresh_block one_handle)) 5]> (structs one_handle))
              (<[fresh_block one_handle := [true; false; true; false; false]]>
                 (heap one_handle))).
Proof.
  apply (bitset_init_bstr_cells one_handle 1%positive (Bitset None 0) ["1"; "0"; "1"]%char [] 5).
  - reflexivity.
  - intros Hin. repeat (apply elem_of_cons in Hin as [Hin|Hin]; [discriminate Hin|]).
    by apply elem_of_nil in Hin.
  - reflexivity.
Defined.

Lemma mutators_keep_len_witness :
  let m := two_bitsets in
  let b := 1%positive in
  let r := Some 2%positive in
  keeps_len (bitset_and (Some b) r) m b /\ keeps_len (bitset_and r (Some b)) m b /\
  keeps_len (bitset_or (Some b) r) m b /\ keeps_len (bitset_or r (Some b)) m b /\
  keeps_len (bitset_xor (Some b) r) m b /\ keeps_len (bitset_xor r (Some b)) m b /\
  keeps_len (bitset_not (Some b)) m b /\
  keeps_len (bitset_lsh 64 (Some b) 2) m b /\
  keeps_len (bitset_rsh 64 (Some b) 2) m b /\
  keeps_len (bitset_lrot 64 false (Some b) 2) m b /\
  keeps_len (bitset_rrot 64 false (Some b) 2) m b /\
  keeps_len (bitset_reset (Some b)) m b.
Proof.
  apply (mutators_keep_len 64 two_bitsets 1%positive 1%positive
           [true; false; true; false; false] (Some 2%positive) 2 false).
  - exact two_bitsets_initialized.
  - exists (Bitset (Some 2%positive) 3). split; [reflexivity|].
    exists [true; true; false]. split; reflexivity.
  - size_ok.
Defined.

(** A failed construction over the first bitset of [two_bitsets]. *)
Lemma constructors_failure_overwrites_witness :
  let m := two_bitsets in
  let b := 1%positive in
  let s0 := Bitset (Some 1%positive) 5 in
  let str := ["A"; NUL]%char in
  let n := 3 in
  let left_as l := with_struct m b (Bitset None l) in
  (bitset_init false (Some b) n m = Some (BITSET_ALLOC_ERR, left_as n) /\
   bitset_init_bstr false (Some b) (Some str) n m = Some (BITSET_ALLOC_ERR, left_as n) /\
   bitset_init_str 64 false (Some b) (Some str) n m =
     Some (BITSET_ALLOC_ERR, left_as (size_mul 64 n CHAR_LEN)) /\
   (n * CHAR_LEN <= SIZE_MAX 64 -> size_mul 64 n CHAR_LEN = n * 8)) /\
  forall l,
    structs (left_as l) !! b = Some (Bitset None l) /\
    (s0 <> Bitset None l -> left_as l <> m) /\
    (forall b', b' <> b -> structs (left_as l) !! b' = structs m !! b') /\
    heap (left_as l) = heap m /\
    bitset_true_len (Some b) (left_as l) = Some (0, left_as l) /\
    bitset_any (Some b) (left_as l) = Some (false, left_as l) /\
    bitset_all (Some b) (left_as l) = Some (false, left_as l) /\
    (forall op r, bitset_binop op (Some b) r (left_as l) = Some (BITSET_NULL_ERR, left_as l)) /\
    bitset_not (Some b) (left_as l) = Some (BITSET_NULL_ERR, left_as l) /\
    (forall k, bitset_lsh 64 (Some b) k (left_as l) = Some (BITSET_NULL_ERR, left_as l) /\
               bitset_rsh 64 (Some b) k (left_as l) = Some (BITSET_NULL_ERR, left_as l)) /\
    (forall ok k, bitset_lrot 64 ok (Some b) k (left_as l) = Some (BITSET_NULL_ERR, left_as l) /\
                  bitset_rrot 64 ok (Some b) k (left_as l) = Some (BITSET_NULL_ERR, left_as l)).
Proof.
  intros m b s0 str n.
  apply (constructors_failure_overwrites 64 m b s0 str n).
  - reflexivity.
  - reflexivity.
Defined.

(** ** The unchecked product [n * CHAR_LEN] *)

(** C6, at an input where the claim fails.  With [n = 2^61 + 1] the product
    [n * CHAR_LEN] wraps to 8.  From the string "A" the construction returns
    success with a bitset of 8 cells, not [n * 8]; from the string "AB" the
    slice of the second character lies outside the 8-cell buffer and the
    copy into it is undefined. *)
Theorem bitset_init_str_overflow :
  let n := 2 ^ 61 + 1 in
  is_size 64 n /\
  bitset_init_str 64 true (Some 1%positive) (Some ["A"; NUL]%char) n one_handle =
    Some (BITSET_GOOD,
          Mem {[ 1%positive := Bitset (Some 1%positive) 8 ]}
              {[ 1%positive := [false; true; false; false; false; false; false; true] ]}) /\
  8 <> n * 8 /\
  bitset_init_str 64 true (Some 1%positive) (Some ["A"; "B"; NUL]%char) n one_handle = None.
Proof.
  split; [size_ok|]. split; [vm_compute; reflexivity|].
  split; [cbv; discriminate|]. vm_compute. reflexivity.
Qed.

(** C8, at a memory where the claim fails.  Constructing from the empty
    string with [n = 2^61], where [n * CHAR_LEN] wraps to 0 and [calloc]
    answers the request for no cells with a non-null pointer, leads to a
    bitset with a non-null buffer and [len = 0]; on it both rotations
    evaluate [n % b->len] with [b->len = 0]. *)
Theorem bitset_rot_mod_zero_reachable :
  exists m b s,
    reachable 64 m /\
    structs m !! b = Some s /\ is_Some (bits s) /\ len s = 0 /\
    forall ok n,
      bitset_lrot 64 ok (Some b) n m = None /\ bitset_rrot 64 ok (Some b) n m = None.
Proof.
  exists (Mem {[ 1%positive := Bitset (Some 1%positive) 0 ]} {[ 1%positive := [] ]}).
  exists 1%positive, (Bitset (Some 1%positive) 0).
  split; [|split; [done|split; [by eexists|split; [done|]]]].
  - apply (reach_call 64 _ one_handle
             (Call_init_str true (Some 1%positive) (Some [NUL]) (2 ^ 61))).
    + apply reach_pristine, one_handle_pristine.
    + cbn [call_sizes]. size_ok.
    + vm_compute. reflexivity.
  - intros ok n. by apply (bitset_rot_zero_len 64 ok _ _ (Bitset (Some 1%positive) 0)).
Qed.

(** * Instances of the further properties *)

Lemma two_bitsets_ready : ready 64 two_bitsets 1%positive 1%positive five_cells.
Proof. apply two_bitsets_initialized. Qed.

Lemma two_bitsets_owner :
  forall b' s', structs two_bitsets !! b' = Some s' -> bits s' = Some 1%positive ->
    b' = 1%positive.
Proof.
  intros b' s' Hb' Hp'. unfold two_bitsets in Hb'. cbn [structs] in Hb'.
  apply lookup_insert_Some in Hb' as [[<- _]|[_ Hb']]; [done|].
  apply lookup_singleton_Some in Hb' as [_ <-]. discriminate Hp'.
Qed.

Lemma twin_bitsets_ready_left :
  ready 64 twin_bitsets 1%positive 1%positive [true; false; true].
Proof. repeat split; try reflexivity; size_ok. Qed.

Lemma twin_bitsets_ready_right :
  ready 64 twin_bitsets 2%positive 2%positive [true; true; false].
Proof. repeat split; try reflexivity; size_ok. Qed.

Lemma after_init_reachable : reachable_nowrap 64 after_init.
Proof.
  apply (reach_call 64 _ one_handle (Call_init true (Some 1%positive) 2)).
  - apply reach_pristine, one_handle_pristine.
  - split; [cbn [call_sizes]; size_ok | exact I].
  - vm_compute. reflexivity.
Qed.

Lemma bitset_init_zeroed_witness :
  let m := one_handle in
  let b := 1%positive in
  let s0 := (Bitset None 0) in
  let n := 5 in
  exists m' p,
    bitset_init true (Some b) n m = Some (BITSET_GOOD, m') /\
    heap m !! p = None /\
    initialized 64 m' b p (replicate (Z.to_nat n) false) /\
    (forall b', b' <> b -> structs m' !! b' = structs m !! b') /\
    (forall q, q <> p -> heap m' !! q = heap m !! q) /\
    bitset_true_len (Some b) m' = Some (0, m') /\
    bitset_any (Some b) m' = Some (false, m') /\
    bitset_all (Some b) m' = Some (false, m').
Proof.
  intros m b s0 n.
  apply (bitset_init_zeroed 64 m b s0 n).
  - reflexivity.
  - reflexivity.
  - size_ok.
Defined.

Lemma uninitialized_rejected_witness :
  let m := one_handle in
  let b := 1%positive in
  let s := (Bitset None 0) in
  let l := 1%positive in
  let n := 3 in
  let ok := true in
  (forall op r, bitset_binop op (Some b) r m = Some (BITSET_NULL_ERR, m)) /\
  (forall op, bitset_binop op (Some l) (Some b) m = Some (BITSET_NULL_ERR, m)) /\
  (forall op r, bitset_binop op None r m = Some (BITSET_NULL_ERR, m)) /\
  (forall op, bitset_binop op (Some l) None m = Some (BITSET_NULL_ERR, m)) /\
  bitset_not (Some b) m = Some (BITSET_NULL_ERR, m) /\
  bitset_lsh 64 (Some b) n m = Some (BITSET_NULL_ERR, m) /\
  bitset_rsh 64 (Some b) n m = Some (BITSET_NULL_ERR, m) /\
  bitset_lrot 64 ok (Some b) n m = Some (BITSET_NULL_ERR, m) /\
  bitset_rrot 64 ok (Some b) n m = Some (BITSET_NULL_ERR, m).
Proof.
  intros m b s l n ok.
  apply (uninitialized_rejected 64 m b s l n ok).
  - reflexivity.
  - reflexivity.
  - by eexists.
Defined.

Lemma uninitialized_defaults_witness :
  let m := one_handle in
  let b := 1%positive in
  let s := (Bitset None 0) in
  (bitset_true_len (Some b) m = Some (0, m) /\ bitset_true_len None m = Some (0, m)) /\
  (bitset_all (Some b) m = Some (false, m) /\ bitset_all None m = Some (false, m)) /\
  (bitset_any (Some b) m = Some (false, m) /\ bitset_any None m = Some (false, m)) /\
  (bitset_reset (Some b) m = Some (tt, m) /\ bitset_reset None m = Some (tt, m)) /\
  (bitset_free (Some b) m = Some (tt, m) /\ bitset_free None m = Some (tt, m)).
Proof.
  intros m b s.
  apply (uninitialized_defaults m b s).
  - reflexivity.
  - reflexivity.
Defined.

Lemma bitset_true_len_counts_witness :
  let m := two_bitsets in
  let b := 1%positive in
  let p := 1%positive in
  let cells := five_cells in
  bitset_true_len (Some b) m =
    Some (Z.of_nat (count_occ Bool.bool_dec cells true), m) /\
  (count_occ Bool.bool_dec cells true <= length cells)%nat.
Proof.
  intros m b p cells.
  apply (bitset_true_len_counts 64 m b p cells).
  - exact two_bitsets_ready.
Defined.

Lemma bitset_all_any_meaning_witness :
  let m := two_bitsets in
  let b := 1%positive in
  let p := 1%positive in
  let cells := five_cells in
  exists a o,
    bitset_all (Some b) m = Some (a, m) /\
    bitset_any (Some b) m = Some (o, m) /\
    (a = true <-> forall i x, cells !! i = Some x -> x = true) /\
    (o = true <-> exists i, cells !! i = Some true).
Proof.
  intros m b p cells.
  apply (bitset_all_any_meaning 64 m b p cells).
  - exact two_bitsets_ready.
Defined.

Lemma bitset_queries_agree_witness :
  let m := two_bitsets in
  let b := 1%positive in
  let p := 1%positive in
  let cells := five_cells in
  exists a o c,
    bitset_all (Some b) m = Some (a, m) /\
    bitset_any (Some b) m = Some (o, m) /\
    bitset_true_len (Some b) m = Some (c, m) /\
    (a = true <-> c = Z.of_nat (length cells)) /\
    (o = true <-> 0 < c).
Proof.
  intros m b p cells.
  apply (bitset_queries_agree 64 m b p cells).
  - exact two_bitsets_ready.
Defined.

Lemma bitset_binop_elementwise_witness :
  let m := twin_bitsets in
  let l := 1%positive in
  let r := 2%positive in
  let lp := 1%positive in
  let rp := 2%positive in
  let cl := [true; false; true] in
  let cr := [true; true; false] in
  bitset_and (Some l) (Some r) m = Some (BITSET_GOOD, with_cells m lp (zip_with andb cl cr)) /\
  bitset_or (Some l) (Some r) m = Some (BITSET_GOOD, with_cells m lp (zip_with orb cl cr)) /\
  bitset_xor (Some l) (Some r) m = Some (BITSET_GOOD, with_cells m lp (zip_with xorb cl cr)) /\
  (forall op, heap (with_cells m lp (zip_with op cl cr)) !! rp = Some cr) /\
  (forall (op : bool -> bool -> bool) i x y,
     cl !! i = Some x -> cr !! i = Some y -> zip_with op cl cr !! i = Some (op x y)).
Proof.
  intros m l r lp rp cl cr.
  apply (bitset_binop_elementwise 64 m l r lp rp cl cr).
  - exact twin_bitsets_ready_left.
  - exact twin_bitsets_ready_right.
  - discriminate.
  - reflexivity.
Defined.

Lemma bitset_binop_self_witness :
  let m := two_bitsets in
  let b := 1%positive in
  let p := 1%positive in
  let cells := five_cells in
  bitset_and (Some b) (Some b) m = Some (BITSET_GOOD, m) /\
  bitset_or (Some b) (Some b) m = Some (BITSET_GOOD, m) /\
  bitset_xor (Some b) (Some b) m =
    Some (BITSET_GOOD, with_cells m p (replicate (length cells) false)).
Proof.
  intros m b p cells.
  apply (bitset_binop_self 64 m b p cells).
  - exact two_bitsets_ready.
Defined.

Lemma bitset_not_flips_witness :
  let m := two_bitsets in
  let b := 1%positive in
  let p := 1%positive in
  let cells := five_cells in
  bitset_not (Some b) m = Some (BITSET_GOOD, with_cells m p (negb <$> cells)) /\
  (bitset_not (Some b);;; bitset_not (Some b)) m = Some (BITSET_GOOD, m) /\
  (bitset_not (Some b);;; bitset_true_len (Some b)) m =
    Some (Z.of_nat (length cells) - popcount cells, with_cells m p (negb <$> cells)).
Proof.
  intros m b p cells.
  apply (bitset_not_flips 64 m b p cells).
  - exact two_bitsets_ready.
Defined.

Lemma bitset_reset_clears_witness :
  let m := two_bitsets in
  let b := 1%positive in
  let p := 1%positive in
  let cells := five_cells in
  let m' := with_cells m p (replicate (length cells) false) in
  bitset_reset (Some b) m = Some (tt, m') /\
  bitset_true_len (Some b) m' = Some (0, m') /\
  bitset_any (Some b) m' = Some (false, m').
Proof.
  intros m b p cells.
  apply (bitset_reset_clears 64 m b p cells).
  - exact two_bitsets_ready.
Defined.

Lemma bitset_free_releases_witness :
  let m := two_bitsets in
  let b := 1%positive in
  let p := 1%positive in
  let cells := five_cells in
  let m' := Mem (<[b := Bitset None (Z.of_nat (length cells))]> (structs m))
                (delete p (heap m)) in
  bitset_free (Some b) m = Some (tt, m') /\
  heap m' !! p = None /\
  bitset_free (Some b) m' = Some (tt, m') /\
  bitset_not (Some b) m' = Some (BITSET_NULL_ERR, m') /\
  bitset_true_len (Some b) m' = Some (0, m').
Proof.
  intros m b p cells.
  apply (bitset_free_releases 64 m b p cells).
  - exact two_bitsets_ready.
Defined.

Lemma bitset_rrot_rotates_witness :
  let m := two_bitsets in
  let b := 1%positive in
  let p := 1%positive in
  let cells := five_cells in
  let n := 7 in
  let k := Z.to_nat (n mod Z.of_nat (length cells)) in
  (k = 0%nat -> forall ok, bitset_rrot 64 ok (Some b) n m = Some (BITSET_GOOD, m)) /\
  (k <> 0%nat ->
   exists cells',
     bitset_rrot 64 true (Some b) n m = Some (BITSET_GOOD, with_cells m p cells') /\
     length cells' = length cells /\
     (forall i, (i < k)%nat -> cells' !! i = cells !! (length cells - k + i)%nat) /\
     (forall i, (i < length cells - k)%nat -> cells' !! (k + i)%nat = cells !! i) /\
     cells' ≡ₚ cells).
Proof.
  intros m b p cells n.
  apply (bitset_rrot_rotates 64 m b p cells n).
  - exact two_bitsets_initialized.
  - size_ok.
Defined.

Lemma bitset_rrot_lrot_restores_witness :
  let m := two_bitsets in
  let b := 1%positive in
  let p := 1%positive in
  let cells := five_cells in
  let k := 7 in
  (bitset_rrot 64 true (Some b) k;;; bitset_lrot 64 true (Some b) k) m = Some (BITSET_GOOD, m).
Proof.
  intros m b p cells k.
  apply (bitset_rrot_lrot_restores 64 m b p cells k).
  - exact two_bitsets_initialized.
  - size_ok.
Defined.

Lemma bitset_lrot_as_rrot_witness :
  let ok := true in
  let m := two_bitsets in
  let b := 1%positive in
  let p := 1%positive in
  let cells := five_cells in
  let n := 7 in
  bitset_lrot 64 ok (Some b) n m =
  bitset_rrot 64 ok (Some b) (Z.of_nat (length cells) - n mod Z.of_nat (length cells)) m.
Proof.
  intros ok m b p cells n.
  apply (bitset_lrot_as_rrot 64 ok m b p cells n).
  - exact two_bitsets_initialized.
  - size_ok.
Defined.

Lemma bitset_lrot_compose_witness :
  let m := two_bitsets in
  let b := 1%positive in
  let p := 1%positive in
  let cells := five_cells in
  let j := 7 in
  let k := 4 in
  exists cells',
    (bitset_lrot 64 true (Some b) j;;; bitset_lrot 64 true (Some b) k) m =
      Some (BITSET_GOOD, with_cells m p cells') /\
    length cells' = length cells /\
    forall i, (i < length cells)%nat ->
      cells' !! i = cells !! Z.to_nat ((Z.of_nat i + j + k) mod Z.of_nat (length cells)).
Proof.
  intros m b p cells j k.
  apply (bitset_lrot_compose 64 m b p cells j k).
  - exact two_bitsets_initialized.
  - size_ok.
  - size_ok.
Defined.

Lemma bitset_rot_keeps_count_witness :
  let m := two_bitsets in
  let b := 1%positive in
  let p := 1%positive in
  let cells := five_cells in
  let n := 7 in
  exists c ml mr,
    bitset_true_len (Some b) m = Some (c, m) /\
    (bitset_lrot 64 true (Some b) n;;; bitset_true_len (Some b)) m = Some (c, ml) /\
    (bitset_rrot 64 true (Some b) n;;; bitset_true_len (Some b)) m = Some (c, mr).
Proof.
  intros m b p cells n.
  apply (bitset_rot_keeps_count 64 m b p cells n).
  - exact two_bitsets_initialized.
  - size_ok.
Defined.

Lemma bitset_shift_there_and_back_witness :
  let m := two_bitsets in
  let b := 1%positive in
  let p := 1%positive in
  let cells := five_cells in
  let k := 2 in
  (bitset_lsh 64 (Some b) k;;; bitset_rsh 64 (Some b) k) m =
    Some (BITSET_GOOD,
          with_cells m p (replicate (Z.to_nat k) false ++ drop (Z.to_nat k) cells)) /\
  (bitset_rsh 64 (Some b) k;;; bitset_lsh 64 (Some b) k) m =
    Some (BITSET_GOOD,
          with_cells m p (take (length cells - Z.to_nat k) cells ++
                          replicate (Z.to_nat k) false)).
Proof.
  intros m b p cells k.
  apply (bitset_shift_there_and_back 64 m b p cells k).
  - exact two_bitsets_ready.
  - split; reflexivity.
Defined.

Lemma bitset_lsh_compose_witness :
  let m := two_bitsets in
  let b := 1%positive in
  let p := 1%positive in
  let cells := five_cells in
  let j := 1 in
  let k := 2 in
  (bitset_lsh 64 (Some b) j;;; bitset_lsh 64 (Some b) k) m =
    Some (BITSET_GOOD,
          with_cells m p
            (drop (Z.to_nat (j + k)) cells ++
             replicate (Nat.min (Z.to_nat (j + k)) (length cells)) false)).
Proof.
  intros m b p cells j k.
  apply (bitset_lsh_compose 64 m b p cells j k).
  - exact two_bitsets_ready.
  - size_ok.
  - size_ok.
Defined.

Lemma bitset_init_str_cells_witness :
  let m := one_handle in
  let b := 1%positive in
  let s0 := (Bitset None 0) in
  let chars := ["A"; "b"]%char in
  let rest := ([] : list ascii) in
  let n := 3 in
  exists q cells,
    bitset_init_str 64 true (Some b) (Some (chars ++ NUL :: rest)) n m =
      Some (BITSET_GOOD,
            Mem (<[b := Bitset (Some q) (n * 8)]> (structs m)) (<[q := cells]> (heap m))) /\
    heap m !! q = None /\
    Z.of_nat (length cells) = n * 8 /\
    forall i j : nat, Z.of_nat i < n -> (j < 8)%nat ->
      cells !! (8 * i + j)%nat =
        Some (match chars !! i with
              | Some c => Z.testbit (Z.of_N (N_of_ascii c)) (7 - Z.of_nat j)
              | None => false
              end).
Proof.
  intros m b s0 chars rest n.
  apply (bitset_init_str_cells 64 m b s0 chars rest n).
  - reflexivity.
  - intros Hin. repeat (apply elem_of_cons in Hin as [Hin|Hin]; [discriminate Hin|]).
    by apply elem_of_nil in Hin.
  - reflexivity.
  - vm_compute. discriminate.
Defined.

Lemma bitset_init_bstr_counted_witness :
  let m := one_handle in
  let b := 1%positive in
  let s0 := (Bitset None 0) in
  let str := ["1"; "0"; "1"]%char in
  let n := 3 in
  bitset_init_bstr true (Some b) (Some str) n m =
    Some (BITSET_GOOD,
          Mem (<[b := Bitset (Some (fresh_block m)) n]> (structs m))
              (<[fresh_block m :=
                   (fun c => bool_decide (c = "1"%char)) <$> take (Z.to_nat n) str]>
                 (heap m))).
Proof.
  intros m b s0 str n.
  apply (bitset_init_bstr_counted m b s0 str n).
  - reflexivity.
  - reflexivity.
  - vm_compute. discriminate.
  - intros Hin. repeat (apply elem_of_cons in Hin as [Hin|Hin]; [discriminate Hin|]).
    by apply elem_of_nil in Hin.
Defined.

Lemma constructors_alloc_failure_witness :
  let m := one_handle in
  let b := 1%positive in
  let s0 := (Bitset None 0) in
  let str := ["1"; NUL]%char in
  let n := 3 in
  let failed l := Mem (<[b := Bitset None l]> (structs m)) (heap m) in
  bitset_init false (Some b) n m = Some (BITSET_ALLOC_ERR, failed n) /\
  bitset_init_bstr false (Some b) (Some str) n m = Some (BITSET_ALLOC_ERR, failed n) /\
  bitset_init_str 64 false (Some b) (Some str) n m =
    Some (BITSET_ALLOC_ERR, failed ((n * 8) mod 2 ^ 64)) /\
  forall l, bitset_not (Some b) (failed l) = Some (BITSET_NULL_ERR, failed l).
Proof.
  intros m b s0 str n.
  apply (constructors_alloc_failure 64 m b s0 str n).
  - reflexivity.
  - discriminate.
Defined.

Lemma bitset_init_keeps_old_block_witness :
  let m := two_bitsets in
  let b := 1%positive in
  let p := 1%positive in
  let cells := five_cells in
  let n := 3 in
  exists m' q,
    bitset_init true (Some b) n m = Some (BITSET_GOOD, m') /\
    q <> p /\
    structs m' !! b = Some (Bitset (Some q) n) /\
    heap m' !! p = Some cells /\
    forall b' s', structs m' !! b' = Some s' -> bits s' <> Some p.
Proof.
  intros m b p cells n.
  apply (bitset_init_keeps_old_block 64 m b p cells n).
  - exact two_bitsets_ready.
  - reflexivity.
  - exact two_bitsets_owner.
Defined.

Lemma reachable_nowrap_data_model_witness :
  let m := after_init in
  let b := 1%positive in
  let s := (Bitset (Some 1%positive) 2) in
  let p := 1%positive in
  (exists cells, heap m !! p = Some cells /\ len s = Z.of_nat (length cells)) /\
  0 < len s <= SIZE_MAX 64 /\
  (forall b' s', structs m !! b' = Some s' -> bits s' = Some p -> b' = b).
Proof.
  intros m b s p.
  apply (reachable_nowrap_data_model 64 m b s p).
  - exact after_init_reachable.
  - reflexivity.
  - reflexivity.
Defined.

Lemma reachable_nowrap_calls_defined_witness :
  let m := after_init in
  let b := (Some 1%positive) in
  let r := (None : option handle) in
  let n := 1 in
  let ok := true in
  is_Some (bitset_true_len b m) /\ is_Some (bitset_all b m) /\
  is_Some (bitset_any b m) /\
  is_Some (bitset_and b r m) /\ is_Some (bitset_or b r m) /\
  is_Some (bitset_xor b r m) /\ is_Some (bitset_not b m) /\
  is_Some (bitset_lsh 64 b n m) /\ is_Some (bitset_rsh 64 b n m) /\
  is_Some (bitset_lrot 64 ok b n m) /\ is_Some (bitset_rrot 64 ok b n m) /\
  is_Some (bitset_reset b m) /\ is_Some (bitset_free b m) /\
  is_Some (bitset_init ok b n m).
Proof.
  intros m b r n ok.
  apply (reachable_nowrap_calls_defined 64 m b r n ok).
  - exact after_init_reachable.
  - by eexists.
  - exact I.
  - size_ok.
Defined.
